(** * AsyncHarmon: the thread-pool wrapper around the Harmonic client

    A shallow embedding of [asyncHarmon.py].  The wrapper owns a
    [concurrent.futures.ThreadPoolExecutor]; its engine
    [_parralelizeCallables] submits one call per work unit, runs a
    completion-detection loop and then collects [future.result()] index by
    index.  The batched catalog operations build a list of callables and a
    list of argument tuples and hand both to the engine.

    Python list objects live in a store and are passed by reference; the
    caller's thread has a clock (milliseconds); the executor is a FIFO queue
    in front of a fixed number of worker threads. *)

From Stdlib Require Import ZArith Lia String.
From stdpp Require Import gmap list.

Local Open Scope Z_scope.
Local Open Scope nat_scope.

(** ** Python values *)

(** A reference to a list object of the store. *)
Definition loc := nat.

(** What the wrapper can be handed as a callable: the bound methods of the
    wrapped client that the batched operations submit, the wrapper's own
    bound method [self.safe_get_company_by_urn], or any other callable of
    the caller, named by a number and interpreted by an environment. *)
Inductive callable : Type :=
| Raw_enrich_company
| Raw_enrich_person
| Raw_search
| Raw_get_company_by_id
| Self_safe_get_company_by_urn
| Fn (k : nat).

#[local] Set Warnings "-register-all".
Inductive value : Type :=
| VNone
| VBool (b : bool)
| VInt (z : Z)
| VStr (s : string)
| VTuple (items : list value)
| VList (l : loc)
| VCallable (c : callable)
| VFuture (id : nat).

(** Exceptions.  [Exc] stands for whatever the remote client raises. *)
Inductive exn : Type :=
| IndexError
| TypeError
| ValueError
| AttributeError
| SystemError
| Exc (name : string).

(** The outcome of a call: a value, or a raised exception. *)
Inductive result (A : Type) : Type :=
| Ok (a : A)
| Raise (e : exn).
Arguments Ok {A} a.
Arguments Raise {A} e.

(** [try: body except: handler] with a bare [except], which catches
    everything. *)
Definition try_except {A} (body : result A) (handler : result A) : result A :=
  match body with
  | Ok a => Ok a
  | Raise _ => handler
  end.

(** The wrapped client, [harmonic.api.HarmonicClient]: an external
    collaborator.  Each method takes its positional arguments and returns or
    raises. *)
Record HarmonicClient : Type := {
  enrich_company_raw : list value -> result value;
  enrich_person_raw : list value -> result value;
  search_raw : list value -> result value;
  get_company_by_id_raw : list value -> result value
}.

(** ** The executor *)

(** A submitted work item: the call, the interval during which a worker
    thread runs it, and what the call produced. *)
Record future : Type := {
  fut_fn : value;
  fut_args : list value;
  fut_start : nat;
  fut_finish : nat;
  fut_outcome : result value
}.

(** [ThreadPoolExecutor]: [idle_at] holds, per worker thread, the time from
    which that worker is free; [work_items] are the futures handed out so
    far, a future's id being its index. *)
Record ThreadPoolExecutor : Type := {
  idle_at : list nat;
  work_items : list future
}.

(** Index of the worker that becomes free first (the leftmost one among
    equals): the worker that takes the next item of the FIFO queue. *)
Fixpoint earliest (ws : list nat) : nat :=
  match ws with
  | [] => 0
  | a :: rest =>
      match rest with
      | [] => 0
      | _ => if a <=? rest !!! earliest rest then 0 else S (earliest rest)
      end
  end.

(** ** The world: store, caller's clock, executor, log of the polling *)

Inductive event : Type :=
| Polled (id : nat) (finished : bool)
| Slept (ms : nat).

Record world : Type := {
  heap : gmap loc (list value);
  clock : nat;
  pool : ThreadPoolExecutor;
  log : list event
}.

(** What running a piece of the wrapper gives: a Python outcome, or the
    model's loop bound was reached. *)
Inductive outcome (A : Type) : Type :=
| Returned (a : A)
| Raised (e : exn)
| OutOfFuel.
Arguments Returned {A} a.
Arguments Raised {A} e.
Arguments OutOfFuel {A}.

Definition M (A : Type) : Type := world -> outcome A * world.

Definition ret {A} (a : A) : M A := fun w => (Returned a, w).

Definition bind {A B} (m : M A) (k : A -> M B) : M B :=
  fun w =>
    match m w with
    | (Returned a, w') => k a w'
    | (Raised e, w') => (Raised e, w')
    | (OutOfFuel, w') => (OutOfFuel, w')
    end.

Definition raise {A} (e : exn) : M A := fun w => (Raised e, w).

Definition out_of_fuel {A} : M A := fun w => (OutOfFuel, w).

Definition lift {A} (r : result A) : M A :=
  match r with
  | Ok a => ret a
  | Raise e => raise e
  end.

Declare Scope py_scope.
Delimit Scope py_scope with py.
Notation "'let*' x ':=' m 'in' k" := (bind m (fun x => k))
  (at level 10, x name, m at level 100, k at level 200) : py_scope.
Notation "m ';;' k" := (bind m (fun _ => k))
  (at level 100, k at level 200, right associativity) : py_scope.
Local Open Scope py_scope.

(** [for x in xs: body x] without [break]. *)
Fixpoint for_each {A} (xs : list A) (body : A -> M unit) : M unit :=
  match xs with
  | [] => ret tt
  | x :: rest => body x ;; for_each rest body
  end.

(** [[f x for x in xs]]: the elements are computed left to right. *)
Fixpoint comprehension {A B} (f : A -> M B) (xs : list A) : M (list B) :=
  match xs with
  | [] => ret []
  | x :: rest =>
      let* y := f x in
      let* ys := comprehension f rest in
      ret (y :: ys)
  end.

(** [while cond(s): s = body(s)], at most [fuel] runs of the body. *)
Fixpoint while_ {S} (fuel : nat) (cond : S -> bool) (body : S -> M S) (s : S)
  : M S :=
  if cond s then
    match fuel with
    | 0 => out_of_fuel
    | S fuel' => let* s' := body s in while_ fuel' cond body s'
    end
  else ret s.

(** *** List objects *)

(** [[]] or the result of a comprehension: a new list object. *)
Definition new_list (items : list value) : M loc :=
  fun w =>
    let l := fresh (dom (heap w)) in
    (Returned l,
     {| heap := <[l := items]> (heap w); clock := clock w;
        pool := pool w; log := log w |}).

(** Reading a list object.  Python has no dangling reference; the model
    raises [SystemError] for one. *)
Definition list_items (l : loc) : M (list value) :=
  fun w =>
    match heap w !! l with
    | Some items => (Returned items, w)
    | None => (Raised SystemError, w)
    end.

(** [len(l)] *)
Definition len (l : loc) : M nat :=
  let* items := list_items l in ret (length items).

(** [l[i]] for [i >= 0]: [IndexError] out of range. *)
Definition getitem (l : loc) (i : nat) : M value :=
  let* items := list_items l in
  match items !! i with
  | Some v => ret v
  | None => raise IndexError
  end.

(** [l.append(v)] *)
Definition append (l : loc) (v : value) : M unit :=
  fun w =>
    match heap w !! l with
    | Some items =>
        (Returned tt,
         {| heap := <[l := items ++ [v]]> (heap w); clock := clock w;
            pool := pool w; log := log w |})
    | None => (Raised SystemError, w)
    end.

(** The characters of a string, each a string of length one. *)
Fixpoint chars (s : string) : list value :=
  match s with
  | EmptyString => []
  | String c rest => VStr (String c EmptyString) :: chars rest
  end.

(** [*v] in a call: the positional arguments that [v] unpacks to.  Tuples,
    lists and strings are iterable; the other values modelled here are
    not. *)
Definition unpack (v : value) : M (list value) :=
  match v with
  | VTuple items => ret items
  | VList l => list_items l
  | VStr s => ret (chars s)
  | _ => raise TypeError
  end.

(** [time.sleep(ms / 1000)] *)
Definition time_sleep (ms : nat) : M unit :=
  fun w =>
    (Returned tt,
     {| heap := heap w; clock := clock w + ms; pool := pool w;
        log := log w ++ [Slept ms] |}).

(** ** The wrapper *)

Record AsyncHarmonicWrapper : Type := {
  numWorkers : Z;
  rawClient : HarmonicClient
}.

(** [concurrent.futures.ThreadPoolExecutor(max_workers)]: [ValueError]
    unless [max_workers] is positive; all workers start idle. *)
Definition new_executor (max_workers : Z) : result ThreadPoolExecutor :=
  if (max_workers <=? 0)%Z then Raise ValueError
  else Ok {| idle_at := replicate (Z.to_nat max_workers) 0; work_items := [] |}.

(** [__init__(self, harmonicClient, numWorkers=10)].  The executor becomes
    the world's executor. *)
Definition __init__ (harmonicClient : HarmonicClient) (numWorkers : option Z)
  : M AsyncHarmonicWrapper :=
  let numWorkers := default 10%Z numWorkers in
  let* executor := lift (new_executor numWorkers) in
  fun w =>
    (Returned {| numWorkers := numWorkers; rawClient := harmonicClient |},
     {| heap := heap w; clock := clock w; pool := executor; log := log w |}).

(** *** Singular catalog operations *)

Definition enrich_company (self : AsyncHarmonicWrapper)
  (url_or_enrichment_request : value) : result value :=
  enrich_company_raw (rawClient self) [url_or_enrichment_request].

Definition enrich_person (self : AsyncHarmonicWrapper) (url : value)
  : result value :=
  enrich_person_raw (rawClient self) [url].

(** [search(self, keywords_or_query, page=0, page_size=50,
    include_results=True)] *)
Definition search (self : AsyncHarmonicWrapper) (keywords_or_query : value)
  (page page_size include_results : option value) : result value :=
  search_raw (rawClient self)
    [keywords_or_query; default (VInt 0) page; default (VInt 50) page_size;
     default (VBool true) include_results].

Definition get_company_by_id (self : AsyncHarmonicWrapper) (id : value)
  : result value :=
  get_company_by_id_raw (rawClient self) [id].

Definition safe_get_company_by_urn (self : AsyncHarmonicWrapper) (urn : value)
  : result value :=
  try_except (get_company_by_id_raw (rawClient self) [urn]) (Ok VNone).

(** A work unit: a callable and its positional arguments. *)
Abbreviation unit_ := (value * list value)%type.

Section Engine.

(** What the caller's own callables do, and how long a call keeps a
    worker thread busy, in milliseconds. *)
Variable env : nat -> list value -> result value.
Variable cost : value -> list value -> nat.

(** The wrapper whose methods are called. *)
Variable self : AsyncHarmonicWrapper.

(** Calling [fn] on the positional arguments [args], as a worker thread
    does. *)
Definition call (fn : value) (args : list value) : result value :=
  match fn with
  | VCallable Raw_enrich_company => enrich_company_raw (rawClient self) args
  | VCallable Raw_enrich_person => enrich_person_raw (rawClient self) args
  | VCallable Raw_search => search_raw (rawClient self) args
  | VCallable Raw_get_company_by_id =>
      get_company_by_id_raw (rawClient self) args
  | VCallable Self_safe_get_company_by_urn =>
      match args with
      | [urn] => safe_get_company_by_urn self urn
      | _ => Raise TypeError
      end
  | VCallable (Fn k) => env k args
  | _ => Raise TypeError
  end.

(** [executor.submit(fn, *args)] at time [now]: the item goes to the
    worker that is free first, which starts it as soon as it is free. *)
Definition executor_submit (now : nat) (fn : value) (args : list value)
  (p : ThreadPoolExecutor) : ThreadPoolExecutor :=
  let k := earliest (idle_at p) in
  let start := now `max` (idle_at p !!! k) in
  let finish := start + cost fn args in
  {| idle_at := <[k := finish]> (idle_at p);
     work_items :=
       work_items p ++
       [{| fut_fn := fn; fut_args := args; fut_start := start;
           fut_finish := finish; fut_outcome := call fn args |}] |}.

(** [self.pool.submit(fn, *args)]: returns the new future at once. *)
Definition submit (fn : value) (args : list value) : M value :=
  fun w =>
    (Returned (VFuture (length (work_items (pool w)))),
     {| heap := heap w; clock := clock w;
        pool := executor_submit (clock w) fn args (pool w);
        log := log w |}).

(** [future.done()] *)
Definition future_done (v : value) : M bool :=
  match v with
  | VFuture id =>
      fun w =>
        match work_items (pool w) !! id with
        | Some f =>
            let finished := fut_finish f <=? clock w in
            (Returned finished,
             {| heap := heap w; clock := clock w; pool := pool w;
                log := log w ++ [Polled id finished] |})
        | None => (Raised SystemError, w)
        end
  | _ => raise AttributeError
  end.

(** [future.result()]: blocks until the call has finished, then returns
    its value or raises its exception. *)
Definition future_result (v : value) : M value :=
  match v with
  | VFuture id =>
      fun w =>
        match work_items (pool w) !! id with
        | Some f =>
            lift (fut_outcome f)
              {| heap := heap w; clock := clock w `max` fut_finish f;
                 pool := pool w; log := log w |}
        | None => (Raised SystemError, w)
        end
  | _ => raise AttributeError
  end.

(** The [for future in futureObjs] scan of the completion-detection loop:
    at the first future that is not done, sleep 0.2 s and [break]. *)
Fixpoint scan (futureObjs : list value) : M unit :=
  match futureObjs with
  | [] => ret tt
  | future :: rest =>
      let* finished := future_done future in
      if negb finished then time_sleep 200 else scan rest
  end.

(** The completion-detection loop (source lines 33 to 41); the state of
    the [while] is the local [fullyResolved]. *)
Definition wait_resolved (fuel : nat) (futureObjs : loc) : M bool :=
  while_ fuel (fun fullyResolved => negb fullyResolved)
    (fun _ =>
       let* futures := list_items futureObjs in
       scan futures ;;
       ret true)
    false.

Definition _parralelizeCallables (fuel : nat)
  (listOfCallables listOfParamTuples : loc) : M loc :=
  let* futureObjs := new_list [] in
  let* n := len listOfCallables in
  for_each (seq 0 n) (fun i =>
    let* fn := getitem listOfCallables i in
    let* params := getitem listOfParamTuples i in
    let* args := unpack params in
    let* futureObj := submit fn args in
    append futureObjs futureObj) ;;
  wait_resolved fuel futureObjs ;;
  let* futures := list_items futureObjs in
  let* results := comprehension future_result futures in
  new_list results.

(** *** Batched catalog operations *)

Definition enrich_companies (fuel : nat) (url_or_enrichment_requests : loc)
  : M loc :=
  let* requests := list_items url_or_enrichment_requests in
  let* tuples := comprehension (fun urlArg => ret (VTuple [urlArg])) requests in
  let* argumentTupleList := new_list tuples in
  let* callableList := new_list [] in
  let* n := len url_or_enrichment_requests in
  for_each (seq 0 n) (fun _ =>
    append callableList (VCallable Raw_enrich_company)) ;;
  _parralelizeCallables fuel callableList argumentTupleList.

Definition enrich_people (fuel : nat) (listOfURLS : loc) : M loc :=
  let* urls := list_items listOfURLS in
  let* tuples := comprehension (fun url => ret (VTuple [url])) urls in
  let* arugmentTupleList := new_list tuples in
  let* callableList := new_list [] in
  let* n := len listOfURLS in
  for_each (seq 0 n) (fun _ =>
    append callableList (VCallable Raw_enrich_person)) ;;
  _parralelizeCallables fuel callableList arugmentTupleList.

Definition batch_searches (fuel : nat) (listOfArgTuples : loc) : M loc :=
  let* callableList := new_list [] in
  let* n := len listOfArgTuples in
  for_each (seq 0 n) (fun _ =>
    append callableList (VCallable Raw_search)) ;;
  _parralelizeCallables fuel callableList listOfArgTuples.

Definition batch_safe_get_company_by_urn (fuel : nat) (listOfURNs : loc)
  : M loc :=
  let* urns := list_items listOfURNs in
  let* tuples := comprehension (fun urn => ret (VTuple [urn])) urns in
  let* paramTupleList := new_list tuples in
  let* n := len listOfURNs in
  let* callables :=
    comprehension
      (fun _ => ret (VCallable Self_safe_get_company_by_urn)) (seq 0 n) in
  let* callableList := new_list callables in
  _parralelizeCallables fuel callableList paramTupleList.


(** ** Functions used to state what the engine computes *)

(** The first exception of a list of outcomes, in list order, or all the
    values. *)
Fixpoint collect {A} (rs : list (result A)) : result (list A) :=
  match rs with
  | [] => Ok []
  | Ok a :: rest =>
      match collect rest with
      | Ok vs => Ok (a :: vs)
      | Raise e => Raise e
      end
  | Raise e :: _ => Raise e
  end.

(** The executor after the units have been submitted one after the other
    at time [now]. *)
Definition submit_all (now : nat) (units : list unit_)
  (p : ThreadPoolExecutor) : ThreadPoolExecutor :=
  foldl (fun p u => executor_submit now u.1 u.2 p) p units.

(** Joining the futures one after the other from time [now]: the first
    exception or all the values, and the time at which the caller has
    them. *)
Fixpoint join_all (now : nat) (fs : list future) : result (list value) * nat :=
  match fs with
  | [] => (Ok [], now)
  | f :: rest =>
      let now' := now `max` fut_finish f in
      match fut_outcome f with
      | Raise e => (Raise e, now')
      | Ok v =>
          match join_all now' rest with
          | (Ok vs, t) => (Ok (v :: vs), t)
          | (Raise e, t) => (Raise e, t)
          end
      end
  end.

(** Number of work items that a worker thread is running at time [t]. *)
Definition running_at (t : nat) (p : ThreadPoolExecutor) : nat :=
  length (filter (fun f => fut_start f <= t < fut_finish f) (work_items p)).

(** Number of worker threads that are busy beyond time [t]. *)
Definition busy_after (t : nat) (p : ThreadPoolExecutor) : nat :=
  length (filter (fun a => t < a) (idle_at p)).

(** A result as the outcome of a run. *)
Definition outcome_of {A} (r : result A) : outcome A :=
  match r with
  | Ok a => Returned a
  | Raise e => Raised e
  end.

(** What the caller of a list-returning operation gets: the items of the
    returned list, or the exception. *)
Definition observe (m : M loc) (w : world) : outcome (list value) :=
  match m w with
  | (Returned l, w') =>
      match heap w' !! l with
      | Some items => Returned items
      | None => Raised SystemError
      end
  | (Raised e, _) => Raised e
  | (OutOfFuel, _) => OutOfFuel
  end.

(** The work units that a run hands to the executor: callable and
    arguments of every future that the run adds. *)
Definition submitted {A} (m : M A) (w : world) : list unit_ :=
  (fun f => (fut_fn f, fut_args f)) <$>
  drop (length (work_items (pool w))) (work_items (pool (m w).2)).

(** A batched catalog operation in the words of the specification: one
    work unit per item, all with the same operation [op], handed to the
    engine, whose result list is returned. *)
Definition batched_by_spec (fuel : nat) (op : callable)
  (items : list (list value)) : M loc :=
  let units := (fun args => (VCallable op, args)) <$> items in
  let* callables := new_list (fst <$> units) in
  let* tuples := new_list ((fun u : unit_ => VTuple u.2) <$> units) in
  _parralelizeCallables fuel callables tuples.

(** An operation that ends in a call of the engine on the callables and
    argument tuples of [units], with the executor untouched before. *)
Definition via_engine (fuel : nat) (m : M loc) (units : list unit_)
  (w : world) : Prop :=
  exists lc lp w2,
    pool w2 = pool w /\
    heap w2 !! lc = Some (fst <$> units) /\
    heap w2 !! lp = Some ((fun u => VTuple u.2) <$> units) /\
    m w = _parralelizeCallables (S fuel) lc lp w2.

(** The executors that [p0] can become by taking work items, at any times
    and for any calls. *)
Inductive served_from (p0 : ThreadPoolExecutor)
  : ThreadPoolExecutor -> Prop :=
| served_refl : served_from p0 p0
| served_submit p now fn args :
    served_from p0 p -> served_from p0 (executor_submit now fn args p).

(** Invariant of an executor with [n] worker threads: the items running at
    any time are on workers that are busy beyond that time, and a worker is
    busy until the finish of an item (or has been idle since time 0). *)
Definition pool_inv (n : nat) (p : ThreadPoolExecutor) : Prop :=
  length (idle_at p) = n /\ 0 < n /\
  (forall t, running_at t p <= busy_after t p) /\
  (forall a, a ∈ idle_at p ->
     a = 0 \/ exists g, g ∈ work_items p /\ fut_finish g = a).

(** The world [w] at a later time of the caller's clock. *)
Definition at_time (t : nat) (w : world) : world :=
  {| heap := heap w; clock := t; pool := pool w; log := log w |}.

(** The store of [w'] holds every list object of [w], unchanged. *)
Definition unchanged (w w' : world) : Prop :=
  forall l items, heap w !! l = Some items -> heap w' !! l = Some items.

(** The run [m] leaves the list objects at the locations [D] as they are,
    from every world that holds them and whatever the outcome. *)
Definition keeps {A} (D : gset loc) (m : M A) : Prop :=
  forall w o w', D ⊆ dom (heap w) -> m w = (o, w') ->
    forall l, l ∈ D -> heap w' !! l = heap w !! l.

(** A value that [*v] cannot unpack: not a tuple, a list or a string. *)
Definition not_iterable (v : value) : Prop :=
  match v with
  | VTuple _ | VList _ | VStr _ => False
  | _ => True
  end.

(** The run [m] never removes a list object from the store. *)
Definition grows {A} (m : M A) : Prop :=
  forall w o w', m w = (o, w') -> dom (heap w) ⊆ dom (heap w').

(** Whenever the run [m] returns, it returns a list object that the store
    did not hold before the run. *)
Definition returns_new_list (m : M loc) : Prop :=
  forall w l w', m w = (Returned l, w') ->
    heap w !! l = None /\ is_Some (heap w' !! l).

(** The log entries of polling the futures [ids] and finding each done. *)
Definition polled_done (ids : list nat) : list event :=
  (fun id => Polled id true) <$> ids.

(** The futures that the executor of [w'] holds beyond those of [w]. *)
Definition added (w w' : world) : list future :=
  drop (length (work_items (pool w))) (work_items (pool w')).

(** Number of worker threads that are idle at time [t]. *)
Definition idle_now (t : nat) (p : ThreadPoolExecutor) : nat :=
  length (filter (fun a => a <= t) (idle_at p)).

(** The positional arguments that the entry [v] of a list of argument
    tuples unpacks to in the store [h]: the items of a tuple or of a list
    object, the characters of a string; nothing for a value that is not
    iterable. *)
Definition args_of (h : gmap loc (list value)) (v : value)
  : option (list value) :=
  match v with
  | VTuple items => Some items
  | VList l => h !! l
  | VStr s => Some (chars s)
  | _ => None
  end.

(** ** Sample client, callables and worlds *)

(** A client whose lookups fail for the ids from 100 on and whose
    enrichment fails for the url ["bad"]. *)
Definition sample_client : HarmonicClient :=
  {| enrich_company_raw := fun args =>
       match args with
       | [VStr "bad"] => Raise (Exc "HTTPError")
       | [VStr url] => Ok (VTuple [VStr "company"; VStr url])
       | _ => Raise TypeError
       end;
     enrich_person_raw := fun args =>
       match args with
       | [VStr url] => Ok (VTuple [VStr "person"; VStr url])
       | _ => Raise TypeError
       end;
     search_raw := fun args =>
       match args with
       | [] => Raise TypeError
       | query :: _ => Ok (VTuple (VStr "hits" :: args))
       end;
     get_company_by_id_raw := fun args =>
       match args with
       | [VInt id] =>
           if (id <? 100)%Z then Ok (VTuple [VStr "company"; VInt id])
           else Raise (Exc "NotFound")
       | _ => Raise TypeError
       end |}.

(** Callable 0 doubles its argument; callable 1 raises ["boom"]; callable 2
    raises ["bang"]. *)
Definition sample_env (k : nat) (args : list value) : result value :=
  match k, args with
  | 0, [VInt x] => Ok (VInt (x * 2))
  | 1, _ => Raise (Exc "boom")
  | 2, _ => Raise (Exc "bang")
  | _, _ => Raise TypeError
  end.

(** A call on an integer [x] runs for [100 * x] ms, any other call for
    50 ms. *)
Definition sample_cost (fn : value) (args : list value) : nat :=
  match args with
  | [VInt x] => 100 * Z.to_nat x
  | _ => 50
  end.

Definition sample_self : AsyncHarmonicWrapper :=
  {| numWorkers := 2; rawClient := sample_client |}.

(** A world before the wrapper is made, with the two given list objects at
    the locations 0 and 1. *)
Definition boot (l0 l1 : list value) : world :=
  {| heap := <[1 := l1]> (<[0 := l0]> ∅); clock := 0;
     pool := {| idle_at := []; work_items := [] |}; log := [] |}.

(** The same world once [__init__] has made a wrapper with two workers. *)
Definition booted (l0 l1 : list value) : world :=
  {| heap := <[1 := l1]> (<[0 := l0]> ∅); clock := 0;
     pool := {| idle_at := [0; 0]; work_items := [] |}; log := [] |}.

(** Three doublings: more units than workers. *)
Definition doubles : list unit_ :=
  [(VCallable (Fn 0), [VInt 3]); (VCallable (Fn 0), [VInt 4]);
   (VCallable (Fn 0), [VInt 5])].

(** A unit that raises at once, before a unit that returns after one
    second. *)
Definition fails_fast : list unit_ :=
  [(VCallable (Fn 1), [VInt 0]); (VCallable (Fn 0), [VInt 10])].

(** A unit that returns, then a slow unit that raises, then a fast unit
    that raises. *)
Definition two_failures : list unit_ :=
  [(VCallable (Fn 0), [VInt 1]); (VCallable (Fn 2), [VInt 5]);
   (VCallable (Fn 1), [VInt 0])].

(** One unit that returns after one second. *)
Definition one_slow : list unit_ := [(VCallable (Fn 0), [VInt 10])].

(** The world in which the callables and the argument tuples of [units]
    are the list objects 0 and 1. *)
Definition world_of (units : list unit_) : world :=
  booted (fst <$> units) ((fun u => VTuple u.2) <$> units).

(** Two doublings, the first on 0 (done at once), the second on 10 (one
    second). *)
Definition quick_then_slow : list unit_ :=
  [(VCallable (Fn 0), [VInt 0]); (VCallable (Fn 0), [VInt 10])].


Definition sample_urns : list value := [VInt 1; VInt 200; VInt 3].

Definition sample_urls : list value := [VStr "a.com"; VStr "b.com"].

(** ** Basic facts about the monad and the list objects *)

Lemma bind_returned {A B} (m : M A) (k : A -> M B) w a w' :
  m w = (Returned a, w') -> bind m k w = k a w'.
Proof. intros H. unfold bind. now rewrite H. Qed.

Lemma fresh_loc_ne (h : gmap loc (list value)) l items :
  h !! l = Some items -> fresh (dom h) <> l.
Proof.
  intros Hl Heq.
  apply (is_fresh (dom h)). rewrite Heq. apply elem_of_dom. eauto.
Qed.

Lemma list_items_some l items w :
  heap w !! l = Some items -> list_items l w = (Returned items, w).
Proof. intros H. unfold list_items. now rewrite H. Qed.

Lemma len_some l items w :
  heap w !! l = Some items -> len l w = (Returned (length items), w).
Proof.
  intros H. unfold len.
  now rewrite (bind_returned _ _ _ _ _ (list_items_some _ _ _ H)).
Qed.

Lemma getitem_some l items i v w :
  heap w !! l = Some items -> items !! i = Some v ->
  getitem l i w = (Returned v, w).
Proof.
  intros H Hi. unfold getitem.
  rewrite (bind_returned _ _ _ _ _ (list_items_some _ _ _ H)). now rewrite Hi.
Qed.

Lemma comprehension_ret {A B} (f : A -> B) (xs : list A) w :
  comprehension (fun x => ret (f x)) xs w = (Returned (f <$> xs), w).
Proof.
  revert w. induction xs as [|x xs IH]; intros w; [reflexivity|].
  cbn [comprehension fmap list_fmap]. unfold bind at 1. cbn [ret].
  unfold bind. now rewrite IH.
Qed.

Lemma for_each_append {A} (xs : list A) l v : forall items w,
  heap w !! l = Some items ->
  for_each xs (fun _ => append l v) w =
  (Returned tt,
   {| heap := <[l := items ++ replicate (length xs) v]> (heap w);
      clock := clock w; pool := pool w; log := log w |}).
Proof.
  induction xs as [|x xs IH]; intros items w Hl.
  - cbn. rewrite app_nil_r, insert_id by done. now destruct w.
  - cbn [for_each length replicate]. unfold bind, append at 1. rewrite Hl.
    erewrite IH by (cbn; apply lookup_insert_eq). cbn.
    rewrite insert_insert_eq, <- app_assoc. reflexivity.
Qed.

(** ** Frame rules: which list objects a run can change *)

Lemma keeps_ret {A} D (a : A) : keeps D (ret a).
Proof. intros w o w' _ [= _ <-]. reflexivity. Qed.

Lemma keeps_raise {A} D e : keeps D (@raise A e).
Proof. intros w o w' _ [= _ <-]. reflexivity. Qed.

Lemma keeps_out_of_fuel {A} D : keeps D (@out_of_fuel A).
Proof. intros w o w' _ [= _ <-]. reflexivity. Qed.

Lemma keeps_lift {A} D (r : result A) : keeps D (lift r).
Proof. destruct r; [apply keeps_ret | apply keeps_raise]. Qed.

(** The continuation may use that its argument was returned by [m] from a
    world that holds [D]. *)
Lemma keeps_bind_from {A B} D (m : M A) (k : A -> M B) :
  keeps D m ->
  (forall a w w',
     D ⊆ dom (heap w) -> m w = (Returned a, w') -> keeps D (k a)) ->
  keeps D (bind m k).
Proof.
  intros Hm Hk w o w' HD Hrun l Hl. unfold bind in Hrun.
  destruct (m w) as [[a| |] w1] eqn:E.
  - assert (HD1 : D ⊆ dom (heap w1)).
    { intros x Hx. apply elem_of_dom. rewrite (Hm w _ w1 HD E x Hx).
      apply elem_of_dom. auto. }
    rewrite (Hk a w w1 HD E w1 o w' HD1 Hrun l Hl).
    exact (Hm w _ w1 HD E l Hl).
  - inversion Hrun; subst. exact (Hm w _ w' HD E l Hl).
  - inversion Hrun; subst. exact (Hm w _ w' HD E l Hl).
Qed.

Lemma keeps_bind {A B} D (m : M A) (k : A -> M B) :
  keeps D m -> (forall a, keeps D (k a)) -> keeps D (bind m k).
Proof. intros Hm Hk. apply keeps_bind_from; auto. Qed.

Lemma keeps_for_each {A} D (xs : list A) (body : A -> M unit) :
  (forall x, keeps D (body x)) -> keeps D (for_each xs body).
Proof.
  intros Hb. induction xs as [|x xs IH]; cbn [for_each].
  - apply keeps_ret.
  - apply keeps_bind; auto.
Qed.

Lemma keeps_comprehension {A B} D (f : A -> M B) (xs : list A) :
  (forall x, keeps D (f x)) -> keeps D (comprehension f xs).
Proof.
  intros Hf. induction xs as [|x xs IH]; cbn [comprehension].
  - apply keeps_ret.
  - apply keeps_bind; [auto|]. intros y.
    apply keeps_bind; [auto|]. intros ys. apply keeps_ret.
Qed.

Lemma keeps_while {S} D fuel (cond : S -> bool) (body : S -> M S) :
  (forall s, keeps D (body s)) -> forall s, keeps D (while_ fuel cond body s).
Proof.
  intros Hb. induction fuel as [|fuel IH]; intros s; cbn [while_].
  - destruct (cond s); [apply keeps_out_of_fuel | apply keeps_ret].
  - destruct (cond s); [|apply keeps_ret]. apply keeps_bind; auto.
Qed.

(** A new list object is none of the objects that the world holds. *)
Lemma keeps_new_list D items : keeps D (new_list items).
Proof.
  intros w o w' HD [= _ <-] l Hl. cbn [heap].
  apply lookup_insert_ne. intros <-.
  apply (is_fresh (dom (heap w))). auto.
Qed.

Lemma new_list_fresh D items l w w' :
  D ⊆ dom (heap w) -> new_list items w = (Returned l, w') -> l ∉ D.
Proof.
  intros HD [= <- _] Hl. apply (is_fresh (dom (heap w))). auto.
Qed.

Lemma keeps_list_items D l : keeps D (list_items l).
Proof.
  intros w o w' _ Hrun x _. unfold list_items in Hrun.
  destruct (heap w !! l); inversion Hrun; reflexivity.
Qed.

Lemma keeps_len D l : keeps D (len l).
Proof.
  apply keeps_bind; [apply keeps_list_items | intros; apply keeps_ret].
Qed.

Lemma keeps_getitem D l i : keeps D (getitem l i).
Proof.
  apply keeps_bind; [apply keeps_list_items|]. intros items.
  destruct (items !! i); [apply keeps_ret | apply keeps_raise].
Qed.

(** [append] changes the list object it is called on, and no other. *)
Lemma keeps_append D l v : l ∉ D -> keeps D (append l v).
Proof.
  intros Hl w o w' _ Hrun x Hx. unfold append in Hrun.
  destruct (heap w !! l); inversion Hrun; [|reflexivity].
  cbn [heap]. apply lookup_insert_ne. intros <-. auto.
Qed.

Lemma keeps_unpack D v : keeps D (unpack v).
Proof.
  destruct v; cbn [unpack];
    first [apply keeps_ret | apply keeps_raise | apply keeps_list_items].
Qed.

Lemma keeps_time_sleep D ms : keeps D (time_sleep ms).
Proof. intros w o w' _ [= _ <-] l _. reflexivity. Qed.

Lemma keeps_future_done D v : keeps D (future_done v).
Proof.
  destruct v; cbn [future_done]; try apply keeps_raise.
  intros w o w' _ Hrun l _.
  destruct (work_items (pool w) !! id); inversion Hrun; reflexivity.
Qed.

Lemma keeps_future_result D v : keeps D (future_result v).
Proof.
  destruct v; cbn [future_result]; try apply keeps_raise.
  intros w o w' _ Hrun l _.
  destruct (work_items (pool w) !! id) as [f|]; [|inversion Hrun; reflexivity].
  destruct (fut_outcome f); inversion Hrun; reflexivity.
Qed.

Lemma keeps_scan D futureObjs : keeps D (scan futureObjs).
Proof.
  induction futureObjs as [|future rest IH]; cbn [scan].
  - apply keeps_ret.
  - apply keeps_bind; [apply keeps_future_done|].
    intros []; cbn [negb]; [exact IH | apply keeps_time_sleep].
Qed.

Lemma keeps_wait_resolved D fuel futureObjs :
  keeps D (wait_resolved fuel futureObjs).
Proof.
  apply keeps_while. intros _.
  apply keeps_bind; [apply keeps_list_items|]. intros futures.
  apply keeps_bind; [apply keeps_scan|]. intros _. apply keeps_ret.
Qed.

(** From every world, the list objects of the world are untouched by a run
    that keeps them. *)
Lemma keeps_unchanged {A} (m : M A) w :
  keeps (dom (heap w)) m -> unchanged w (m w).2.
Proof.
  intros Hk l items Hl.
  destruct (m w) as [o w'] eqn:E. cbn [snd].
  rewrite (Hk w o w' (reflexivity _) E l); [exact Hl|].
  apply elem_of_dom. eauto.
Qed.

(** *** Submission *)

Lemma submit_all_length now units : forall p,
  length (work_items (submit_all now units p)) =
  length (work_items p) + length units.
Proof.
  induction units as [|u units IH]; intros p; cbn; [lia|].
  unfold submit_all in IH. rewrite IH. cbn. rewrite length_app. cbn. lia.
Qed.

Lemma submit_all_outcomes now units : forall p,
  fut_outcome <$> work_items (submit_all now units p) =
  (fut_outcome <$> work_items p) ++
  ((fun u => call u.1 u.2) <$> units).
Proof.
  induction units as [|u units IH]; intros p; cbn.
  - now rewrite app_nil_r.
  - unfold submit_all in IH. rewrite IH. cbn.
    rewrite fmap_app, <- app_assoc. reflexivity.
Qed.

Lemma submit_all_units now units : forall p,
  (fun f => (fut_fn f, fut_args f)) <$> work_items (submit_all now units p) =
  ((fun f => (fut_fn f, fut_args f)) <$> work_items p) ++ units.
Proof.
  induction units as [|[fn args] units IH]; intros p; cbn.
  - now rewrite app_nil_r.
  - unfold submit_all in IH. rewrite IH. cbn.
    rewrite fmap_app, <- app_assoc. reflexivity.
Qed.

Lemma submit_all_prefix now units : forall p,
  exists fs, work_items (submit_all now units p) = work_items p ++ fs.
Proof.
  induction units as [|u units IH]; intros p; cbn.
  - exists []. now rewrite app_nil_r.
  - unfold submit_all in IH.
    destruct (IH (executor_submit now u.1 u.2 p)) as [fs Hfs].
    rewrite Hfs. cbn. eexists. now rewrite <- app_assoc.
Qed.

(** The submission loop of the engine (source lines 26 to 28), started at
    index [a] with [futureObjs] holding [fs]. *)
Lemma submit_loop lc lp lf cs ps units : forall a fs w,
  heap w !! lc = Some cs ->
  heap w !! lp = Some ps ->
  heap w !! lf = Some fs ->
  lf <> lc -> lf <> lp ->
  (forall j u, units !! j = Some u ->
     cs !! (a + j) = Some u.1 /\ ps !! (a + j) = Some (VTuple u.2)) ->
  for_each (seq a (length units)) (fun i =>
    let* fn := getitem lc i in
    let* params := getitem lp i in
    let* args := unpack params in
    let* futureObj := submit fn args in
    append lf futureObj) w =
  (Returned tt,
   {| heap :=
        <[lf := fs ++ (VFuture <$>
                      seq (length (work_items (pool w))) (length units))]>
          (heap w);
      clock := clock w;
      pool := submit_all (clock w) units (pool w);
      log := log w |}).
Proof.
  induction units as [|u units IH]; intros a fs w Hc Hp Hf Hfc Hfp Hu.
  - cbn. rewrite app_nil_r, insert_id by done. now destruct w.
  - cbn [length seq for_each].
    destruct (Hu 0 u eq_refl) as [Hcu Hpu]. rewrite Nat.add_0_r in Hcu, Hpu.
    unfold bind at 1.
    rewrite (bind_returned _ _ _ _ _ (getitem_some _ _ _ _ _ Hc Hcu)).
    rewrite (bind_returned _ _ _ _ _ (getitem_some _ _ _ _ _ Hp Hpu)).
    cbn [unpack]. unfold bind at 1. cbn [ret].
    unfold bind at 1. cbn [submit].
    unfold append at 1. cbn [heap clock pool log]. rewrite Hf.
    rewrite (IH (S a) (fs ++ [VFuture (length (work_items (pool w)))])).
    + cbn [heap clock pool log work_items executor_submit submit_all foldl].
      rewrite insert_insert_eq, length_app, <- app_assoc. cbn [length app].
      rewrite Nat.add_1_r. reflexivity.
    + cbn. now rewrite lookup_insert_ne.
    + cbn. now rewrite lookup_insert_ne.
    + cbn. apply lookup_insert_eq.
    + done.
    + done.
    + intros j v Hj. specialize (Hu (S j) v Hj).
      now replace (S a + j) with (a + S j) by lia.
Qed.

(** *** Completion detection *)

(** With any fuel, the [while] of the completion-detection loop runs its
    body once: [fullyResolved] is set after the first scan whatever the
    scan found. *)
Lemma wait_resolved_once fuel lf w :
  wait_resolved (S fuel) lf w =
  (let* futures := list_items lf in scan futures ;; ret true) w.
Proof.
  unfold wait_resolved. cbn [while_ negb]. unfold bind at 1.
  destruct ((let* futures := list_items lf in scan futures ;; ret true) w)
    as [[b| |] w'] eqn:E; try reflexivity.
  assert (b = true) as ->.
  { unfold bind in E.
    destruct (list_items lf w) as [[fs| |] w1]; try discriminate.
    destruct (scan fs w1) as [[[]| |] w2]; try discriminate.
    unfold ret in E. now inversion E. }
  destruct fuel; reflexivity.
Qed.

(** A scan over futures of the executor changes the caller's clock by at
    most one sleep, and nothing else but the log. *)
Lemma scan_ok ids : forall w,
  Forall (fun id => id < length (work_items (pool w))) ids ->
  exists t l,
    scan (VFuture <$> ids) w =
    (Returned tt, {| heap := heap w; clock := t; pool := pool w; log := l |})
    /\ (t = clock w \/ t = clock w + 200).
Proof.
  induction ids as [|id ids IH]; intros w Hids.
  - exists (clock w), (log w). split; [|now left]. cbn. now destruct w.
  - inversion Hids as [|? ? Hid Hrest]; subst.
    apply lookup_lt_is_Some_2 in Hid as [f Hf].
    cbn [fmap list_fmap scan]. unfold bind, future_done. rewrite Hf.
    destruct (fut_finish f <=? clock w); cbn [negb].
    + destruct (IH {| heap := heap w; clock := clock w; pool := pool w;
                      log := log w ++ [Polled id true] |} Hrest)
        as (t & l & Hscan & Ht).
      exists t, l. split; assumption.
    + eexists _, _. split; [reflexivity|]. now right.
Qed.

Lemma wait_resolved_ok fuel lf ids w :
  heap w !! lf = Some (VFuture <$> ids) ->
  Forall (fun id => id < length (work_items (pool w))) ids ->
  exists t l,
    wait_resolved (S fuel) lf w =
    (Returned true,
     {| heap := heap w; clock := t; pool := pool w; log := l |})
    /\ (t = clock w \/ t = clock w + 200).
Proof.
  intros Hlf Hids. rewrite wait_resolved_once.
  rewrite (bind_returned _ _ _ _ _ (list_items_some _ _ _ Hlf)).
  destruct (scan_ok ids w Hids) as (t & l & Hscan & Ht).
  exists t, l. split; [|assumption].
  now rewrite (bind_returned _ _ _ _ _ Hscan).
Qed.

(** *** Collecting the results *)

Lemma join_all_collect fs : forall now,
  (join_all now fs).1 = collect (fut_outcome <$> fs).
Proof.
  induction fs as [|f fs IH]; intros now; [reflexivity|].
  cbn. destruct (fut_outcome f); [|reflexivity].
  rewrite <- (IH (now `max` fut_finish f)).
  now destruct (join_all _ fs) as [[vs|e] t].
Qed.

Lemma join_all_mono fs : forall now, now <= (join_all now fs).2.
Proof.
  induction fs as [|f fs IH]; intros now; cbn; [lia|].
  destruct (fut_outcome f); cbn; [|lia].
  specialize (IH (now `max` fut_finish f)).
  destruct (join_all _ fs) as [[vs|e] t]; cbn in *; lia.
Qed.

(** When every future gave a value, the caller has the values only after
    the last future has finished. *)
Lemma join_all_finished fs : forall now vs t,
  join_all now fs = (Ok vs, t) ->
  Forall (fun f => fut_finish f <= t) fs.
Proof.
  induction fs as [|f fs IH]; intros now vs t H; [constructor|].
  cbn in H. destruct (fut_outcome f); [|discriminate].
  pose proof (join_all_mono fs (now `max` fut_finish f)) as Hm.
  destruct (join_all _ fs) as [[vs'|e] t'] eqn:E; inversion H; subst.
  constructor; [cbn in Hm; lia | eauto].
Qed.

Lemma comprehension_result ids fs : forall w,
  Forall2 (fun id f => work_items (pool w) !! id = Some f) ids fs ->
  comprehension (future_result) (VFuture <$> ids) w =
  match join_all (clock w) fs with
  | (Ok vs, t) => (Returned vs, at_time t w)
  | (Raise e, t) => (Raised e, at_time t w)
  end.
Proof.
  intros w H. revert w H. revert fs.
  induction ids as [|id ids IH]; intros fs w H.
  - inversion H; subst. cbn. now destruct w.
  - inversion H as [|? f ? fs' Hf Hrest]; subst.
    cbn [fmap list_fmap comprehension join_all]. unfold bind at 1.
    unfold future_result at 1. rewrite Hf.
    destruct (fut_outcome f) as [v|e]; cbn [lift ret raise]; [|reflexivity].
    unfold bind at 1.
    rewrite (IH fs' {| heap := heap w; clock := clock w `max` fut_finish f;
                       pool := pool w; log := log w |} Hrest).
    cbn [clock]. now destruct (join_all _ fs') as [[vs|e] t].
Qed.

Lemma lookup_appended {A} (l : list A) : forall pre,
  Forall2 (fun id x => (pre ++ l) !! id = Some x)
    (seq (length pre) (length l)) l.
Proof.
  induction l as [|x l IH]; intros pre; [constructor|].
  cbn [length seq]. constructor.
  - apply list_lookup_middle. reflexivity.
  - specialize (IH (pre ++ [x])).
    rewrite <- app_assoc, length_app in IH. cbn in IH.
    now rewrite Nat.add_1_r in IH.
Qed.

(** *** The engine on a batch of work units *)

(** One run of [_parralelizeCallables] on the callables and the argument
    tuples of [units]: the futures [fs] are added to the executor, the
    completion-detection loop leaves at [t0], and the results are joined
    from there. *)
Lemma engine_run fuel lc lp units w :
  heap w !! lc = Some (fst <$> units) ->
  heap w !! lp = Some ((fun u => VTuple u.2) <$> units) ->
  let lf := fresh (dom (heap w)) in
  let ids := seq (length (work_items (pool w))) (length units) in
  let h1 := <[lf := VFuture <$> ids]> (heap w) in
  let p1 := submit_all (clock w) units (pool w) in
  exists fs t0 l,
    work_items p1 = work_items (pool w) ++ fs /\
    (t0 = clock w \/ t0 = clock w + 200) /\
    _parralelizeCallables (S fuel) lc lp w =
    match join_all t0 fs with
    | (Ok vs, t) =>
        (Returned (fresh (dom h1)),
         {| heap := <[fresh (dom h1) := vs]> h1; clock := t; pool := p1;
            log := l |})
    | (Raise e, t) =>
        (Raised e, {| heap := h1; clock := t; pool := p1; log := l |})
    end.
Proof.
  intros Hc Hp lf ids h1 p1.
  assert (exists fs, work_items p1 = work_items (pool w) ++ fs) as [fs Hfs]
    by apply submit_all_prefix.
  assert (Hlen : length fs = length units).
  { assert (H : length (work_items p1) =
                length (work_items (pool w)) + length units)
      by apply submit_all_length.
    rewrite Hfs, length_app in H. lia. }
  pose (wa := {| heap := <[lf := []]> (heap w); clock := clock w;
                 pool := pool w; log := log w |}).
  assert (Hlc : lf <> lc) by (eapply fresh_loc_ne; eauto).
  assert (Hlp : lf <> lp) by (eapply fresh_loc_ne; eauto).
  assert (Hca : heap wa !! lc = Some (fst <$> units))
    by (cbn; now rewrite lookup_insert_ne).
  assert (Hpa : heap wa !! lp = Some ((fun u => VTuple u.2) <$> units))
    by (cbn; now rewrite lookup_insert_ne).
  pose (wb := {| heap := h1; clock := clock w; pool := p1; log := log w |}).
  assert (Hwait : Forall (fun id => id < length (work_items (pool wb))) ids).
  { apply Forall_forall. intros id Hid. apply elem_of_seq in Hid.
    cbn. rewrite Hfs, length_app. lia. }
  destruct (wait_resolved_ok fuel lf ids wb (lookup_insert_eq _ _ _) Hwait)
    as (t0 & l & Hw & Ht0).
  exists fs, t0, l. split; [assumption|]. split; [assumption|].
  unfold _parralelizeCallables.
  rewrite (bind_returned (new_list []) _ w lf wa eq_refl).
  rewrite (bind_returned _ _ _ _ _ (len_some _ _ _ Hca)).
  rewrite length_fmap.
  assert (Hunits : forall j u, units !! j = Some u ->
            (fst <$> units) !! (0 + j) = Some u.1 /\
            ((fun u => VTuple u.2) <$> units) !! (0 + j) = Some (VTuple u.2)).
  { intros j u Hj. change (0 + j) with j.
    rewrite !list_lookup_fmap, Hj. now split. }
  assert (Hloop := submit_loop lc lp lf _ _ units 0 [] wa Hca Hpa
                     (lookup_insert_eq _ _ _) Hlc Hlp Hunits).
  cbn [app heap clock pool log wa] in Hloop.
  rewrite insert_insert_eq in Hloop.
  rewrite (bind_returned _ _ _ _ _ Hloop).
  rewrite (bind_returned _ _ _ _ _ Hw).
  pose (wc := {| heap := h1; clock := t0; pool := p1; log := l |}).
  fold wc.
  assert (Hlf : heap wc !! lf = Some (VFuture <$> ids))
    by apply lookup_insert_eq.
  rewrite (bind_returned _ _ _ _ _ (list_items_some _ _ _ Hlf)).
  unfold bind at 1.
  rewrite (comprehension_result ids fs wc).
  2:{ cbn. rewrite Hfs. unfold ids. rewrite <- Hlen. apply lookup_appended. }
  cbn [clock wc].
  destruct (join_all t0 fs) as [[vs|e] t]; reflexivity.
Qed.

Lemma collect_ok {A} (rs : list (result A)) : forall vs,
  collect rs = Ok vs <-> rs = Ok <$> vs.
Proof.
  induction rs as [|[a|e] rs IH]; intros vs; cbn.
  - split; [intros [= <-]; reflexivity | now destruct vs].
  - destruct (collect rs) as [vs'|e'] eqn:E.
    + split.
      * intros [= <-]. cbn. f_equal. now apply IH.
      * destruct vs as [|v vs]; [discriminate|]. cbn. intros [= -> H].
        apply IH in H. congruence.
    + split; [discriminate|].
      destruct vs as [|v vs]; [discriminate|]. cbn. intros [= -> H].
      apply IH in H. congruence.
  - split; [discriminate | now destruct vs].
Qed.

(** [collect] raises the exception of the first item that raised. *)
Lemma collect_raise {A} (rs : list (result A)) : forall e,
  collect rs = Raise e <->
  exists i, rs !! i = Some (Raise e) /\
    forall j, j < i -> exists a, rs !! j = Some (Ok a).
Proof.
  induction rs as [|[a|e'] rs IH]; intros e; cbn.
  - split; [discriminate | now intros (i & H & _)].
  - destruct (collect rs) as [vs'|e''] eqn:E.
    + split; [discriminate|]. intros (i & Hi & Hlt).
      destruct i as [|i]; [discriminate|].
      assert (Ok vs' = Raise e) as H; [|discriminate].
      apply IH. exists i. split; [exact Hi|].
      intros j Hj. apply (Hlt (S j)). lia.
    + split.
      * intros [= ->]. destruct (proj1 (IH e) eq_refl) as (i & Hi & Hlt).
        exists (S i). split; [exact Hi|].
        intros [|j] Hj; [eauto|]. apply Hlt. lia.
      * intros (i & Hi & Hlt). destruct i as [|i]; [discriminate|].
        apply IH. exists i. split; [exact Hi|].
        intros j Hj. apply (Hlt (S j)). lia.
  - split.
    + intros [= ->]. exists 0. split; [reflexivity|]. intros j Hj. lia.
    + intros (i & Hi & Hlt). destruct i as [|i]; [now inversion Hi|].
      destruct (Hlt 0) as [a Ha]; [lia|]. discriminate.
Qed.

(** The futures that a batch adds carry the outcomes of its units. *)
Lemma added_outcomes now units p fs :
  work_items (submit_all now units p) = work_items p ++ fs ->
  fut_outcome <$> fs = (fun u => call u.1 u.2) <$> units.
Proof.
  intros H. pose proof (submit_all_outcomes now units p) as Ho.
  rewrite H, fmap_app in Ho. now apply app_inv_head in Ho.
Qed.

Lemma added_units now units p fs :
  work_items (submit_all now units p) = work_items p ++ fs ->
  (fun f => (fut_fn f, fut_args f)) <$> fs = units.
Proof.
  intros H. pose proof (submit_all_units now units p) as Ho.
  rewrite H, fmap_app in Ho. now apply app_inv_head in Ho.
Qed.

(** What the caller of the engine gets, whatever the timing. *)
Lemma engine_observe fuel lc lp units w :
  heap w !! lc = Some (fst <$> units) ->
  heap w !! lp = Some ((fun u => VTuple u.2) <$> units) ->
  observe (_parralelizeCallables (S fuel) lc lp) w =
  outcome_of (collect ((fun u => call u.1 u.2) <$> units)).
Proof.
  intros Hc Hp.
  destruct (engine_run fuel lc lp units w Hc Hp)
    as (fs & t0 & l & Hfs & _ & Hrun).
  unfold observe. rewrite Hrun.
  rewrite <- (added_outcomes _ _ _ _ Hfs), <- (join_all_collect fs t0).
  destruct (join_all t0 fs) as [[vs|e] t]; cbn; [|reflexivity].
  now rewrite lookup_insert_eq.
Qed.

Lemma all_returned units :
  Forall (fun u : unit_ => exists v, call u.1 u.2 = Ok v) units ->
  exists vs, (fun u => call u.1 u.2) <$> units = Ok <$> vs.
Proof.
  induction 1 as [|u units [v Hv] _ [vs IH]].
  - now exists [].
  - exists (v :: vs). cbn. now rewrite Hv, IH.
Qed.

Lemma returned_pairwise (units : list unit_) : forall vs,
  (fun u => call u.1 u.2) <$> units = Ok <$> vs ->
  Forall2 (fun u v => call u.1 u.2 = Ok v) units vs.
Proof.
  induction units as [|u units IH]; intros [|v vs] H; try discriminate.
  - constructor.
  - cbn in H. inversion H. constructor; auto.
Qed.

Lemma some_raised {A} (rs : list (result A)) :
  Exists (fun r => exists e, r = Raise e) rs -> exists e, collect rs = Raise e.
Proof.
  induction 1 as [r rs [e ->]|[a|e] rs _ [e' IH]]; cbn; eauto.
  rewrite IH. eauto.
Qed.

Lemma engine_returns_aligned fuel lc lp (units : list unit_) w :
  heap w !! lc = Some (fst <$> units) ->
  heap w !! lp = Some ((fun u => VTuple u.2) <$> units) ->
  Forall (fun u => exists v, call u.1 u.2 = Ok v) units ->
  exists results,
    observe (_parralelizeCallables (S fuel) lc lp) w = Returned results /\
    length results = length units /\
    forall i u, units !! i = Some u ->
      exists v, results !! i = Some v /\ call u.1 u.2 = Ok v.
Proof.
  intros Hc Hp Hall. destruct (all_returned units Hall) as [vs Hvs].
  exists vs. rewrite (engine_observe fuel lc lp units w Hc Hp).
  split; [|split].
  - apply (collect_ok _ vs) in Hvs. now rewrite Hvs.
  - apply (f_equal length) in Hvs. now rewrite !length_fmap in Hvs.
  - intros i u Hu. apply (f_equal (fun l => l !! i)) in Hvs.
    rewrite !list_lookup_fmap, Hu in Hvs. cbn in Hvs.
    destruct (vs !! i) as [v|]; [|discriminate]. cbn in Hvs.
    exists v. split; congruence.
Qed.

(** C1.  For every batch of N work units whose calls all return,
    [_parralelizeCallables] returns a list of N results whose i-th item is
    what the i-th callable returns on the i-th argument tuple (the empty list
    for the empty batch); this holds for every running time of the calls,
    every state of the executor and every time of the caller's clock. *)
Theorem parralelize_results_aligned fuel lc lp (units : list unit_) w :
  heap w !! lc = Some (fst <$> units) ->
  heap w !! lp = Some ((fun u => VTuple u.2) <$> units) ->
  Forall (fun u => exists v, call u.1 u.2 = Ok v) units ->
  exists results,
    observe (_parralelizeCallables (S fuel) lc lp) w = Returned results /\
    length results = length units /\
    forall i u, units !! i = Some u ->
      exists v, results !! i = Some v /\ call u.1 u.2 = Ok v.
Proof. apply engine_returns_aligned. Qed.

(** C2.  A batch is all or nothing: the caller gets either one result
    per unit, each the value its call returned, or one exception that a
    unit raised; and when some unit raises, the engine raises and has
    built no list of results, the only new list object being the list of
    futures. *)
Theorem batch_all_or_nothing fuel lc lp (units : list unit_) w :
  heap w !! lc = Some (fst <$> units) ->
  heap w !! lp = Some ((fun u => VTuple u.2) <$> units) ->
  match observe (_parralelizeCallables (S fuel) lc lp) w with
  | Returned results =>
      Forall2 (fun u v => call u.1 u.2 = Ok v) units results
  | Raised e => Exists (fun u => call u.1 u.2 = Raise e) units
  | OutOfFuel => False
  end /\
  (Exists (fun u => exists e, call u.1 u.2 = Raise e) units ->
   exists e w',
     _parralelizeCallables (S fuel) lc lp w = (Raised e, w') /\
     heap w' =
     <[fresh (dom (heap w)) :=
         VFuture <$> seq (length (work_items (pool w))) (length units)]>
       (heap w)).
Proof.
  intros Hc Hp. split.
  - rewrite (engine_observe fuel lc lp units w Hc Hp).
    destruct (collect _) as [vs|e] eqn:E; cbn.
    + apply collect_ok in E. now apply returned_pairwise.
    + apply collect_raise in E as (i & Hi & _).
      rewrite list_lookup_fmap in Hi.
      destruct (units !! i) as [u|] eqn:Hu; [|discriminate].
      apply Exists_exists. exists u. split.
      * eapply list_elem_of_lookup_2; eauto.
      * cbn in Hi. congruence.
  - intros Hex.
    destruct (engine_run fuel lc lp units w Hc Hp)
      as (fs & t0 & l & Hfs & _ & Hrun).
    assert (exists e, collect (fut_outcome <$> fs) = Raise e) as [e He].
    { apply some_raised. rewrite (added_outcomes _ _ _ _ Hfs).
      apply Exists_fmap. eapply Exists_impl; [exact Hex|].
      intros u [e He]. eauto. }
    rewrite <- (join_all_collect fs t0) in He.
    destruct (join_all t0 fs) as [[vs|e'] t]; cbn in He; [discriminate|].
    eexists _, _. split; [exact Hrun|]. reflexivity.
Qed.

(** C10.  When several units raise, the engine raises the exception of
    the failing unit of lowest index, for every running time of the
    calls, every state of the executor and every time of the caller's
    clock. *)
Theorem lowest_index_failure_surfaces fuel lc lp (units : list unit_) w i u e :
  heap w !! lc = Some (fst <$> units) ->
  heap w !! lp = Some ((fun u => VTuple u.2) <$> units) ->
  units !! i = Some u ->
  call u.1 u.2 = Raise e ->
  (forall j u', j < i -> units !! j = Some u' ->
     exists v, call u'.1 u'.2 = Ok v) ->
  observe (_parralelizeCallables (S fuel) lc lp) w = Raised e.
Proof.
  intros Hc Hp Hu He Hlow.
  rewrite (engine_observe fuel lc lp units w Hc Hp).
  assert (collect ((fun u => call u.1 u.2) <$> units) = Raise e)
    as ->; [|reflexivity].
  apply collect_raise. exists i. split.
  - now rewrite list_lookup_fmap, Hu; cbn; rewrite He.
  - intros j Hj.
    destruct (lookup_lt_is_Some_2 units j) as [u' Hu'].
    { apply lookup_lt_Some in Hu. lia. }
    destruct (Hlow j u' Hj Hu') as [v Hv].
    exists v. now rewrite list_lookup_fmap, Hu'; cbn; rewrite Hv.
Qed.

(** *** The batched catalog operations hand their items to the engine *)

Lemma engine_submitted fuel lc lp (units : list unit_) w :
  heap w !! lc = Some (fst <$> units) ->
  heap w !! lp = Some ((fun u => VTuple u.2) <$> units) ->
  submitted (_parralelizeCallables (S fuel) lc lp) w = units.
Proof.
  intros Hc Hp.
  destruct (engine_run fuel lc lp units w Hc Hp)
    as (fs & t0 & l & Hfs & _ & Hrun).
  unfold submitted. rewrite Hrun.
  destruct (join_all t0 fs) as [[vs|e] t]; cbn [snd pool];
    rewrite Hfs, drop_app_length; exact (added_units _ _ _ _ Hfs).
Qed.

Lemma via_engine_observe fuel m units w :
  via_engine fuel m units w ->
  observe m w =
  outcome_of (collect ((fun u => call u.1 u.2) <$> units)) /\
  submitted m w = units.
Proof.
  intros (lc & lp & w2 & Hpool & Hc & Hp & Hm). split.
  - unfold observe. rewrite Hm.
    exact (engine_observe fuel lc lp units w2 Hc Hp).
  - unfold submitted. rewrite Hm, <- Hpool.
    exact (engine_submitted fuel lc lp units w2 Hc Hp).
Qed.

Lemma fst_same_callable {A} (c : value) (f : A -> list value) (xs : list A) :
  fst <$> ((fun x => (c, f x)) <$> xs) = replicate (length xs) c.
Proof. induction xs as [|x xs IH]; cbn; [reflexivity|]. now f_equal. Qed.

Lemma args_as_tuples {A} (c : value) (f : A -> list value) (xs : list A) :
  (fun u : unit_ => VTuple u.2) <$> ((fun x => (c, f x)) <$> xs) =
  (fun x => VTuple (f x)) <$> xs.
Proof. induction xs as [|x xs IH]; cbn; [reflexivity|]. now f_equal. Qed.

Lemma same_for_seq {B} (c : B) n : forall a,
  (fun _ => c) <$> seq a n = replicate n c.
Proof. induction n as [|n IH]; intros a; cbn; [reflexivity|]. now f_equal. Qed.

Lemma batched_by_spec_via_engine fuel op items w :
  via_engine fuel (batched_by_spec (S fuel) op items)
    ((fun args => (VCallable op, args)) <$> items) w.
Proof.
  unfold via_engine, batched_by_spec.
  eexists _, _, _. split; [|split; [|split]]; cycle 3.
  - rewrite (bind_returned (new_list _) _ w _ _ eq_refl).
    rewrite (bind_returned (new_list _) _ _ _ _ eq_refl). reflexivity.
  - reflexivity.
  - cbn [heap]. rewrite lookup_insert_ne; [apply lookup_insert_eq|].
    eapply fresh_loc_ne. apply lookup_insert_eq.
  - cbn [heap]. apply lookup_insert_eq.
Qed.

Lemma enrich_companies_via_engine fuel l urls w :
  heap w !! l = Some urls ->
  via_engine fuel (enrich_companies (S fuel) l)
    ((fun url => (VCallable Raw_enrich_company, [url])) <$> urls) w.
Proof.
  intros Hl. unfold via_engine, enrich_companies.
  rewrite (bind_returned _ _ _ _ _ (list_items_some _ _ _ Hl)).
  rewrite (bind_returned _ _ _ _ _ (comprehension_ret _ urls w)).
  rewrite (bind_returned (new_list _) _ w _ _ eq_refl).
  rewrite (bind_returned (new_list _) _ _ _ _ eq_refl).
  set (la := fresh (dom (heap w))).
  set (ha := <[la := (fun urlArg => VTuple [urlArg]) <$> urls]> (heap w)).
  set (lc := fresh (dom ha)).
  assert (Hla : lc <> la) by (eapply fresh_loc_ne; apply lookup_insert_eq).
  assert (Hll : lc <> l).
  { eapply fresh_loc_ne. unfold ha. rewrite lookup_insert_ne; [exact Hl|].
    eapply fresh_loc_ne, Hl. }
  erewrite (bind_returned (len l)); cycle 1.
  { apply len_some. cbn [heap]. rewrite lookup_insert_ne by done.
    unfold ha. rewrite lookup_insert_ne; [exact Hl|]. eapply fresh_loc_ne, Hl. }
  erewrite (bind_returned (for_each _ _)); cycle 1.
  { apply for_each_append. cbn [heap]. apply lookup_insert_eq. }
  cbn [heap clock pool log app]. rewrite insert_insert_eq, length_seq.
  eexists lc, la, _. split; [|split; [|split]]; cycle 3.
  - reflexivity.
  - reflexivity.
  - cbn [heap]. rewrite lookup_insert_eq. now rewrite fst_same_callable.
  - cbn [heap]. rewrite lookup_insert_ne by done. unfold ha.
    rewrite lookup_insert_eq. now rewrite args_as_tuples.
Qed.

Lemma enrich_people_via_engine fuel l urls w :
  heap w !! l = Some urls ->
  via_engine fuel (enrich_people (S fuel) l)
    ((fun url => (VCallable Raw_enrich_person, [url])) <$> urls) w.
Proof.
  intros Hl. unfold via_engine, enrich_people.
  rewrite (bind_returned _ _ _ _ _ (list_items_some _ _ _ Hl)).
  rewrite (bind_returned _ _ _ _ _ (comprehension_ret _ urls w)).
  rewrite (bind_returned (new_list _) _ w _ _ eq_refl).
  rewrite (bind_returned (new_list _) _ _ _ _ eq_refl).
  set (la := fresh (dom (heap w))).
  set (ha := <[la := (fun url => VTuple [url]) <$> urls]> (heap w)).
  set (lc := fresh (dom ha)).
  assert (Hla : lc <> la) by (eapply fresh_loc_ne; apply lookup_insert_eq).
  erewrite (bind_returned (len l)); cycle 1.
  { apply len_some. cbn [heap]. rewrite lookup_insert_ne.
    - unfold ha. rewrite lookup_insert_ne; [exact Hl|]. eapply fresh_loc_ne, Hl.
    - eapply fresh_loc_ne. unfold ha. rewrite lookup_insert_ne; [exact Hl|].
      eapply fresh_loc_ne, Hl. }
  erewrite (bind_returned (for_each _ _)); cycle 1.
  { apply for_each_append. cbn [heap]. apply lookup_insert_eq. }
  cbn [heap clock pool log app]. rewrite insert_insert_eq, length_seq.
  eexists lc, la, _. split; [|split; [|split]]; cycle 3.
  - reflexivity.
  - reflexivity.
  - cbn [heap]. rewrite lookup_insert_eq. now rewrite fst_same_callable.
  - cbn [heap]. rewrite lookup_insert_ne by done. unfold ha.
    rewrite lookup_insert_eq. now rewrite args_as_tuples.
Qed.

Lemma batch_searches_via_engine fuel l argss w :
  heap w !! l = Some (VTuple <$> argss) ->
  via_engine fuel (batch_searches (S fuel) l)
    ((fun args => (VCallable Raw_search, args)) <$> argss) w.
Proof.
  intros Hl. unfold via_engine, batch_searches.
  rewrite (bind_returned (new_list _) _ w _ _ eq_refl).
  set (lc := fresh (dom (heap w))).
  assert (Hll : lc <> l) by (eapply fresh_loc_ne, Hl).
  erewrite (bind_returned (len l)); cycle 1.
  { apply len_some. cbn [heap]. rewrite lookup_insert_ne by done. exact Hl. }
  erewrite (bind_returned (for_each _ _)); cycle 1.
  { apply for_each_append. cbn [heap]. apply lookup_insert_eq. }
  cbn [heap clock pool log app].
  rewrite insert_insert_eq, length_seq, length_fmap.
  eexists lc, l, _. split; [|split; [|split]]; cycle 3.
  - reflexivity.
  - reflexivity.
  - cbn [heap]. rewrite lookup_insert_eq. now rewrite fst_same_callable.
  - cbn [heap]. rewrite lookup_insert_ne by done. rewrite Hl.
    now rewrite (args_as_tuples _ (fun args => args)).
Qed.

Lemma batch_safe_via_engine fuel l urns w :
  heap w !! l = Some urns ->
  via_engine fuel (batch_safe_get_company_by_urn (S fuel) l)
    ((fun urn => (VCallable Self_safe_get_company_by_urn, [urn])) <$> urns) w.
Proof.
  intros Hl. unfold via_engine, batch_safe_get_company_by_urn.
  rewrite (bind_returned _ _ _ _ _ (list_items_some _ _ _ Hl)).
  rewrite (bind_returned _ _ _ _ _ (comprehension_ret _ urns w)).
  rewrite (bind_returned (new_list _) _ w _ _ eq_refl).
  set (la := fresh (dom (heap w))).
  assert (Hll : la <> l) by (eapply fresh_loc_ne, Hl).
  erewrite (bind_returned (len l)); cycle 1.
  { apply len_some. cbn [heap]. rewrite lookup_insert_ne by done. exact Hl. }
  erewrite (bind_returned (comprehension _ _)); cycle 1.
  { apply comprehension_ret. }
  rewrite (bind_returned (new_list _) _ _ _ _ eq_refl).
  cbn [heap clock pool log]. rewrite same_for_seq.
  eexists _, la, _. split; [|split; [|split]]; cycle 3.
  - reflexivity.
  - reflexivity.
  - cbn [heap]. rewrite lookup_insert_eq. now rewrite fst_same_callable.
  - cbn [heap]. rewrite lookup_insert_ne.
    + rewrite lookup_insert_eq. now rewrite args_as_tuples.
    + eapply fresh_loc_ne. apply lookup_insert_eq.
Qed.

(** C4.  For every list of URNs, [batch_safe_get_company_by_urn] returns
    one slot per URN, in order: the value of the client's lookup where it
    succeeds and [None] where it raises; the batch itself never raises
    because of a failed lookup. *)
Theorem batch_safe_one_slot_per_urn fuel l urns w :
  heap w !! l = Some urns ->
  observe (batch_safe_get_company_by_urn (S fuel) l) w =
  Returned
    ((fun urn =>
        match get_company_by_id self urn with
        | Ok company => company
        | Raise _ => VNone
        end) <$> urns).
Proof.
  intros Hl.
  destruct (via_engine_observe fuel _ _ w
              (batch_safe_via_engine fuel l urns w Hl)) as [-> _].
  match goal with |- outcome_of ?r = _ => assert (r = Ok
    ((fun urn => match get_company_by_id self urn with
                 | Ok company => company
                 | Raise _ => VNone
                 end) <$> urns)) as -> end; [|reflexivity].
  apply collect_ok. rewrite <- !list_fmap_compose.
  apply list_fmap_ext. intros i urn _. cbn.
  unfold safe_get_company_by_urn, get_company_by_id, try_except.
  now destruct (get_company_by_id_raw (rawClient self) [urn]).
Qed.

(** C5.  Each batched catalog operation is its singular operation
    replicated per item and run through the engine: it hands the executor
    one work unit per item, all with the same bound method of the client;
    the caller gets what the specification's batched operation gives, which
    is the list of what the singular operation returns item by item (or
    the first exception in item order). *)
Theorem batched_is_singular_replicated fuel l w :
  (forall urls, heap w !! l = Some urls ->
     submitted (enrich_companies (S fuel) l) w =
       (fun url => (VCallable Raw_enrich_company, [url])) <$> urls /\
     observe (enrich_companies (S fuel) l) w =
       observe (batched_by_spec (S fuel) Raw_enrich_company
                  ((fun url => [url]) <$> urls)) w /\
     observe (enrich_companies (S fuel) l) w =
       outcome_of (collect (enrich_company self <$> urls))) /\
  (forall urls, heap w !! l = Some urls ->
     submitted (enrich_people (S fuel) l) w =
       (fun url => (VCallable Raw_enrich_person, [url])) <$> urls /\
     observe (enrich_people (S fuel) l) w =
       observe (batched_by_spec (S fuel) Raw_enrich_person
                  ((fun url => [url]) <$> urls)) w /\
     observe (enrich_people (S fuel) l) w =
       outcome_of (collect (enrich_person self <$> urls))) /\
  (forall argss, heap w !! l = Some (VTuple <$> argss) ->
     submitted (batch_searches (S fuel) l) w =
       (fun args => (VCallable Raw_search, args)) <$> argss /\
     observe (batch_searches (S fuel) l) w =
       observe (batched_by_spec (S fuel) Raw_search argss) w /\
     observe (batch_searches (S fuel) l) w =
       outcome_of (collect (search_raw (rawClient self) <$> argss))).
Proof.
  split; [|split].
  - intros urls Hl.
    destruct (via_engine_observe fuel _ _ w
                (enrich_companies_via_engine fuel l urls w Hl)) as [Ho Hs].
    destruct (via_engine_observe fuel _ _ w
                (batched_by_spec_via_engine fuel Raw_enrich_company
                   ((fun url => [url]) <$> urls) w)) as [Ho' _].
    rewrite <- !list_fmap_compose in Ho. rewrite <- !list_fmap_compose in Ho'.
    split; [exact Hs|]. split; [now rewrite Ho, Ho'|exact Ho].
  - intros urls Hl.
    destruct (via_engine_observe fuel _ _ w
                (enrich_people_via_engine fuel l urls w Hl)) as [Ho Hs].
    destruct (via_engine_observe fuel _ _ w
                (batched_by_spec_via_engine fuel Raw_enrich_person
                   ((fun url => [url]) <$> urls) w)) as [Ho' _].
    rewrite <- !list_fmap_compose in Ho. rewrite <- !list_fmap_compose in Ho'.
    split; [exact Hs|]. split; [now rewrite Ho, Ho'|exact Ho].
  - intros argss Hl.
    destruct (via_engine_observe fuel _ _ w
                (batch_searches_via_engine fuel l argss w Hl)) as [Ho Hs].
    destruct (via_engine_observe fuel _ _ w
                (batched_by_spec_via_engine fuel Raw_search argss w))
      as [Ho' _].
    rewrite <- !list_fmap_compose in Ho. rewrite <- !list_fmap_compose in Ho'.
    split; [exact Hs|]. split; [now rewrite Ho, Ho'|exact Ho].
Qed.

(** *** The engine and the batched operations change no list object of
    the caller *)

Lemma keeps_submit D fn args : keeps D (submit fn args).
Proof. intros w o w' _ [= _ <-] l _. reflexivity. Qed.

Create HintDb frame.
#[local] Hint Resolve keeps_ret keeps_raise keeps_lift keeps_new_list
  keeps_list_items keeps_len keeps_getitem keeps_append keeps_unpack
  keeps_time_sleep keeps_future_done keeps_future_result keeps_scan
  keeps_wait_resolved keeps_submit : frame.

(** Walks down a run: through its binds and loops, closing the primitives
    with the frame rules. *)
Ltac frame :=
  repeat first
    [ solve [eauto with frame]
    | apply keeps_for_each; intros ?
    | apply keeps_comprehension; intros ?
    | apply keeps_bind; [|intros ?] ].

(** The same for a run that starts by making a list of its own, which the
    rest of the run may append to. *)
Ltac frame_own_list D :=
  apply keeps_bind_from; [apply keeps_new_list|];
  let l := fresh "own" in
  let w := fresh "w" in
  let w' := fresh "w'" in
  let HD := fresh "HD" in
  let Hnew := fresh "Hnew" in
  intros l w w' HD Hnew;
  pose proof (new_list_fresh D _ _ _ _ HD Hnew).

Lemma keeps_engine D fuel lc lp :
  keeps D (_parralelizeCallables fuel lc lp).
Proof. unfold _parralelizeCallables. frame_own_list D. frame. Qed.

#[local] Hint Resolve keeps_engine : frame.

Lemma keeps_enrich_companies D fuel l : keeps D (enrich_companies fuel l).
Proof.
  unfold enrich_companies. do 3 (apply keeps_bind; [frame|]; intros ?).
  frame_own_list D. frame.
Qed.

Lemma keeps_enrich_people D fuel l : keeps D (enrich_people fuel l).
Proof.
  unfold enrich_people. do 3 (apply keeps_bind; [frame|]; intros ?).
  frame_own_list D. frame.
Qed.

Lemma keeps_batch_searches D fuel l : keeps D (batch_searches fuel l).
Proof. unfold batch_searches. frame_own_list D. frame. Qed.

Lemma keeps_batch_safe D fuel l :
  keeps D (batch_safe_get_company_by_urn fuel l).
Proof. unfold batch_safe_get_company_by_urn. frame. Qed.

(** C8.  Whatever the outcome of the call (a result list, an exception,
    on any input), the store after [_parralelizeCallables] holds the
    caller's list of callables and list of argument tuples with the items
    they had before, and the store after each batched catalog operation
    holds its input list with the items it had before. *)
Theorem inputs_not_mutated fuel w :
  (forall lc lp callables tuples,
     heap w !! lc = Some callables ->
     heap w !! lp = Some tuples ->
     let w' := (_parralelizeCallables fuel lc lp w).2 in
     heap w' !! lc = Some callables /\ heap w' !! lp = Some tuples) /\
  (forall l items,
     heap w !! l = Some items ->
     heap (enrich_companies fuel l w).2 !! l = Some items /\
     heap (enrich_people fuel l w).2 !! l = Some items /\
     heap (batch_searches fuel l w).2 !! l = Some items /\
     heap (batch_safe_get_company_by_urn fuel l w).2 !! l =
       Some items).
Proof.
  split.
  - intros lc lp callables tuples Hc Hp w'.
    pose proof (keeps_unchanged _ w
                  (keeps_engine (dom (heap w)) fuel lc lp)) as H.
    split; apply H; assumption.
  - intros l items Hl. repeat split.
    + now apply (keeps_unchanged _ w (keeps_enrich_companies _ fuel l)).
    + now apply (keeps_unchanged _ w (keeps_enrich_people _ fuel l)).
    + now apply (keeps_unchanged _ w (keeps_batch_searches _ fuel l)).
    + now apply (keeps_unchanged _ w (keeps_batch_safe _ fuel l)).
Qed.

(** *** The executor keeps to its number of worker threads *)

Lemma earliest_lt ws : ws <> [] -> earliest ws < length ws.
Proof.
  induction ws as [|a [|b rest] IH]; intros H; [done| cbn; lia |].
  cbn [earliest length].
  destruct (a <=? _); [lia|]. specialize (IH ltac:(done)). cbn in IH. lia.
Qed.

(** Replacing one item of a list changes the number of items that satisfy
    a predicate by that item only. *)
Lemma filter_insert_length {A} (P : A -> Prop) `{forall x, Decision (P x)}
  `{Inhabited A} (l : list A) : forall k x,
  k < length l ->
  length (filter P (<[k := x]> l)) + (if decide (P (l !!! k)) then 1 else 0) =
  length (filter P l) + (if decide (P x) then 1 else 0).
Proof.
  induction l as [|y l IH]; intros k x Hk; [cbn in Hk; lia|].
  destruct k as [|k].
  - cbn [list_insert insert lookup_total list_lookup_total].
    rewrite !filter_cons. repeat case_decide; cbn; lia.
  - cbn in Hk. specialize (IH k x ltac:(lia)).
    change (<[S k := x]> (y :: l)) with (y :: <[k := x]> l).
    change ((y :: l) !!! S k) with (l !!! k).
    rewrite !filter_cons. repeat case_decide; cbn in *; lia.
Qed.

Lemma busy_le_workers t p : busy_after t p <= length (idle_at p).
Proof. unfold busy_after. apply length_filter. Qed.

Lemma pool_inv_new max_workers p :
  new_executor max_workers = Ok p -> pool_inv (Z.to_nat max_workers) p.
Proof.
  unfold new_executor. destruct (Z.leb_spec max_workers 0); [discriminate|].
  intros [= <-]. unfold pool_inv. cbn.
  split; [apply length_replicate|]. split; [lia|]. split.
  - intros t. unfold running_at. cbn. lia.
  - intros a Ha. apply elem_of_replicate in Ha as [-> _]. now left.
Qed.

Lemma pool_inv_submit n now fn args p :
  pool_inv n p -> pool_inv n (executor_submit now fn args p).
Proof.
  intros (Hlen & Hn & Hrun & Hidle).
  assert (Hk : earliest (idle_at p) < length (idle_at p)).
  { apply earliest_lt. intros E. rewrite E in Hlen. cbn in Hlen. lia. }
  unfold pool_inv. cbn [idle_at work_items executor_submit].
  split; [now rewrite length_insert|]. split; [exact Hn|]. split.
  - intros t. specialize (Hrun t).
    unfold running_at, busy_after, executor_submit in *.
    cbn [idle_at work_items].
    pose proof (filter_insert_length (fun a => t < a) (idle_at p)
                  (earliest (idle_at p))
                  (now `max` (idle_at p !!! earliest (idle_at p)) +
                   cost fn args) Hk) as Hc.
    rewrite filter_app, length_app, filter_cons, filter_nil.
    cbn [fut_start fut_finish].
    repeat case_decide; cbn [length] in *; lia.
  - intros a Ha. apply list_elem_of_lookup in Ha as [i Hi].
    destruct (decide (i = earliest (idle_at p))) as [->|Hne].
    + rewrite list_lookup_insert_eq in Hi by exact Hk. inversion Hi; subst.
      right. eexists. split.
      * apply elem_of_app. right. now apply list_elem_of_singleton.
      * reflexivity.
    + rewrite list_lookup_insert_ne in Hi by congruence.
      destruct (Hidle a (list_elem_of_lookup_2 _ _ _ Hi)) as [->|(g & Hg & <-)];
        [now left|].
      right. exists g. split; [|reflexivity]. apply elem_of_app. now left.
Qed.

Lemma pool_inv_served n p0 p :
  pool_inv n p0 -> served_from p0 p -> pool_inv n p.
Proof.
  intros H0. induction 1; [exact H0|]. now apply pool_inv_submit.
Qed.

Lemma pool_inv_submit_all n now units : forall p,
  pool_inv n p -> pool_inv n (submit_all now units p).
Proof.
  induction units as [|u units IH]; intros p Hp; [exact Hp|].
  cbn. apply IH. now apply pool_inv_submit.
Qed.

(** An item starts when it is submitted or, if it has to wait, at the
    finish of an earlier item. *)
Lemma submit_all_starts n now units : forall p fs,
  pool_inv n p ->
  work_items (submit_all now units p) = work_items p ++ fs ->
  Forall (fun f =>
    now <= fut_start f /\
    (now < fut_start f ->
     exists g, g ∈ work_items (submit_all now units p) /\
               fut_finish g = fut_start f)) fs.
Proof.
  induction units as [|u units IH]; intros p fs Hp Hfs.
  - cbn in Hfs. rewrite <- (app_nil_r (work_items p)) in Hfs at 1.
    apply app_inv_head in Hfs. subst fs. constructor.
  - change (submit_all now (u :: units) p)
      with (submit_all now units (executor_submit now u.1 u.2 p)) in *.
    destruct (submit_all_prefix now units (executor_submit now u.1 u.2 p))
      as [fs' Hfs'].
    pose proof Hfs' as Hall. rewrite Hfs in Hall.
    cbn [work_items executor_submit] in Hall.
    rewrite <- app_assoc in Hall. apply app_inv_head in Hall. subst fs.
    constructor.
    + cbn [fut_start]. split; [lia|]. intros Hlt.
      destruct Hp as (Hlen & Hn & _ & Hidle).
      assert (Hk : earliest (idle_at p) < length (idle_at p)).
      { apply earliest_lt. intros E. rewrite E in Hlen. cbn in Hlen. lia. }
      destruct (lookup_lt_is_Some_2 _ _ Hk) as [a Ha].
      rewrite (list_lookup_total_correct _ _ _ Ha) in Hlt |- *.
      destruct (Hidle a (list_elem_of_lookup_2 _ _ _ Ha))
        as [->|(g & Hg & Hga)]; [lia|].
      exists g. split; [|lia]. rewrite Hfs'.
      cbn [work_items executor_submit].
      apply elem_of_app. left. apply elem_of_app. now left.
    + exact (IH _ fs' (pool_inv_submit n now u.1 u.2 p Hp) Hfs').
Qed.

Lemma pool_inv_init client nw w0 w1 :
  __init__ client nw w0 = (Returned self, w1) ->
  pool_inv (Z.to_nat (default 10%Z nw)) (pool w1) /\
  numWorkers self = default 10%Z nw /\ rawClient self = client.
Proof.
  unfold __init__, bind. intros H.
  destruct (new_executor (default 10%Z nw)) as [p|e] eqn:E;
    cbn [lift ret raise] in H; [|discriminate].
  inversion H as [[Hself Hw]]. cbn [pool numWorkers rawClient].
  split; [now apply pool_inv_new|]. now split.
Qed.

(** A batch whose calls all return: the world in which the engine
    returns. *)
Lemma engine_run_returned fuel lc lp (units : list unit_) w :
  heap w !! lc = Some (fst <$> units) ->
  heap w !! lp = Some ((fun u => VTuple u.2) <$> units) ->
  Forall (fun u => exists v, call u.1 u.2 = Ok v) units ->
  exists fs t0 vs h lr,
    work_items (submit_all (clock w) units (pool w)) =
      work_items (pool w) ++ fs /\
    (exists t l, join_all t0 fs = (Ok vs, t) /\
     _parralelizeCallables (S fuel) lc lp w =
     (Returned lr,
      {| heap := h; clock := t; pool := submit_all (clock w) units (pool w);
         log := l |})).
Proof.
  intros Hc Hp Hall.
  destruct (engine_run fuel lc lp units w Hc Hp)
    as (fs & t0 & l & Hfs & _ & Hrun).
  destruct (all_returned units Hall) as [vs Hvs].
  rewrite <- (added_outcomes _ _ _ _ Hfs) in Hvs.
  apply collect_ok in Hvs. rewrite <- (join_all_collect fs t0) in Hvs.
  destruct (join_all t0 fs) as [r t] eqn:E. cbn in Hvs. subst r.
  eexists fs, t0, vs, _, _. split; [exact Hfs|].
  exists t, l. split; [exact E | exact Hrun].
Qed.

(** C9.  On the executor that [__init__] made for the configured number
    of workers (10 by default), after any number of earlier submissions, a
    batch of any size, also one larger than the number of workers, whose
    calls all return gives the complete ordered result list: every unit is
    handed to the executor, at no time do more items run than there are
    workers, an item that does not start when it is submitted starts at the
    finish of another item, and all items of the batch have finished when
    the engine returns. *)
Theorem larger_batches_queue fuel client nw w0 w1 lc lp (units : list unit_) w :
  __init__ client nw w0 = (Returned self, w1) ->
  served_from (pool w1) (pool w) ->
  heap w !! lc = Some (fst <$> units) ->
  heap w !! lp = Some ((fun u => VTuple u.2) <$> units) ->
  Forall (fun u => exists v, call u.1 u.2 = Ok v) units ->
  let w' := (_parralelizeCallables (S fuel) lc lp w).2 in
  let added := drop (length (work_items (pool w))) (work_items (pool w')) in
  (exists results,
     observe (_parralelizeCallables (S fuel) lc lp) w = Returned results /\
     length results = length units /\
     forall i u, units !! i = Some u ->
       exists v, results !! i = Some v /\ call u.1 u.2 = Ok v) /\
  submitted (_parralelizeCallables (S fuel) lc lp) w = units /\
  (forall t, running_at t (pool w') <= Z.to_nat (default 10%Z nw)) /\
  Forall (fun f =>
    clock w <= fut_start f /\
    (clock w < fut_start f ->
     exists g, g ∈ work_items (pool w') /\ fut_finish g = fut_start f) /\
    fut_finish f <= clock w') added.
Proof.
  intros Hinit Hserved Hc Hp Hall w' added.
  destruct (pool_inv_init _ _ _ _ Hinit) as (Hinv1 & _ & _).
  pose proof (pool_inv_served _ _ _ Hinv1 Hserved) as Hinv.
  destruct (engine_run_returned fuel lc lp units w Hc Hp Hall)
    as (fs & t0 & vs & h & lr & Hfs & t & l & Hjoin & Hrun).
  split; [now apply engine_returns_aligned|].
  split; [now apply engine_submitted|].
  subst added w'. rewrite Hrun. cbn [snd pool clock].
  pose proof (pool_inv_submit_all _ (clock w) units _ Hinv)
    as (Hlen & _ & Hrunning & _).
  split.
  - intros t'. rewrite <- Hlen.
    etransitivity; [apply Hrunning | apply busy_le_workers].
  - rewrite Hfs, drop_app_length.
    pose proof (submit_all_starts _ (clock w) units _ fs Hinv Hfs) as Hst.
    pose proof (join_all_finished fs t0 vs t Hjoin) as Hfin.
    rewrite Forall_forall in Hst, Hfin. apply Forall_forall. intros f Hf.
    destruct (Hst f Hf) as [Hge Hwait]. rewrite <- Hfs.
    split; [exact Hge|]. split; [exact Hwait | exact (Hfin f Hf)].
Qed.

(** ** Further facts about the engine *)

Lemma bind_raised {A B} (m : M A) (k : A -> M B) w e w' :
  m w = (Raised e, w') -> bind m k w = (Raised e, w').
Proof. intros H. unfold bind. now rewrite H. Qed.

(** *** One scan of the futures *)

(** A scan polls the futures in order.  Either all are done: nothing but
    the log changes; or it stops at the first future that is not done,
    sleeps 200 ms and polls no further. *)
Lemma scan_spec ids fs : forall w,
  Forall2 (fun id f => work_items (pool w) !! id = Some f) ids fs ->
  exists t l,
    scan (VFuture <$> ids) w =
    (Returned tt, {| heap := heap w; clock := t; pool := pool w; log := l |})
    /\
    ((Forall (fun f => fut_finish f <= clock w) fs /\
      t = clock w /\ l = log w ++ polled_done ids) \/
     (exists k id f,
        ids !! k = Some id /\ fs !! k = Some f /\
        clock w < fut_finish f /\
        Forall (fun f => fut_finish f <= clock w) (take k fs) /\
        t = clock w + 200 /\
        l = log w ++ polled_done (take k ids) ++ [Polled id false; Slept 200])).
Proof.
  intros w H. revert w H. revert fs.
  induction ids as [|id ids IH]; intros fs w H.
  - inversion H; subst. exists (clock w), (log w). split.
    + cbn. now destruct w.
    + left. split; [constructor|]. split; [reflexivity|].
      unfold polled_done. cbn. now rewrite app_nil_r.
  - inversion H as [|? f ? fs' Hf Hrest]; subst.
    cbn [fmap list_fmap scan]. unfold bind, future_done. rewrite Hf.
    destruct (Nat.leb_spec (fut_finish f) (clock w)) as [Hle|Hgt]; cbn [negb].
    + destruct (IH fs' {| heap := heap w; clock := clock w; pool := pool w;
                          log := log w ++ [Polled id true] |} Hrest)
        as (t & l & Hscan & Hcase).
      exists t, l. split; [exact Hscan|]. cbn [clock log] in Hcase.
      destruct Hcase as [(Hall & -> & ->)
                        |(k & id' & f' & Hk & Hfk & Hlt & Htake & -> & ->)].
      * left. split; [now constructor|]. split; [reflexivity|].
        unfold polled_done. cbn. now rewrite <- app_assoc.
      * right. exists (S k), id', f'. cbn [take].
        repeat split; try assumption; [now constructor|].
        unfold polled_done. cbn. now rewrite <- app_assoc.
    + eexists _, _. split; [reflexivity|]. right.
      exists 0, id, f. cbn [take].
      repeat split; try assumption; [constructor|].
      unfold polled_done. cbn. now rewrite <- app_assoc.
Qed.

Lemma join_all_time fs : forall now,
  (join_all now fs).2 = now \/
  exists f, f ∈ fs /\ (join_all now fs).2 = fut_finish f.
Proof.
  induction fs as [|f fs IH]; intros now; cbn; [now left|].
  assert (Hmax : now `max` fut_finish f = now \/
                 now `max` fut_finish f = fut_finish f) by lia.
  destruct (fut_outcome f); cbn.
  - destruct (IH (now `max` fut_finish f)) as [Ht|(g & Hg & Ht)];
      destruct (join_all _ fs) as [[vs|e] t]; cbn in *; subst.
    + destruct Hmax as [->| ->]; [now left|].
      right. exists f. split; [left|reflexivity].
    + destruct Hmax as [->| ->]; [now left|].
      right. exists f. split; [left|reflexivity].
    + right. exists g. split; [now right|reflexivity].
    + right. exists g. split; [now right|reflexivity].
  - destruct Hmax as [->| ->]; [now left|].
    right. exists f. split; [left|reflexivity].
Qed.

(** When joining raises, the exception is that of the first future that
    holds one; that future and those before it have finished, and nothing
    after it has been waited for. *)
Lemma join_all_raise fs : forall now e t,
  join_all now fs = (Raise e, t) ->
  exists i f,
    fs !! i = Some f /\ fut_outcome f = Raise e /\
    (forall j g, j < i -> fs !! j = Some g -> exists v, fut_outcome g = Ok v) /\
    t = (join_all now (take (S i) fs)).2 /\
    Forall (fun g => fut_finish g <= t) (take (S i) fs).
Proof.
  induction fs as [|f fs IH]; intros now e t H; [discriminate|].
  cbn in H. destruct (fut_outcome f) as [v|e'] eqn:Ef.
  - destruct (join_all (now `max` fut_finish f) fs) as [[vs|e''] t'] eqn:E;
      inversion H; subst.
    destruct (IH _ _ _ E) as (i & g & Hi & Hg & Hbefore & Ht & Hall).
    exists (S i), g. split; [exact Hi|]. split; [exact Hg|]. split.
    { intros [|j] g' Hj Hg'.
      - inversion Hg'; subst. eauto.
      - apply (Hbefore j g'); [lia | exact Hg']. }
    change (take (S (S i)) (f :: fs)) with (f :: take (S i) fs).
    cbn [join_all]. rewrite Ef.
    pose proof (join_all_mono (take (S i) fs) (now `max` fut_finish f)) as Hm.
    destruct (join_all _ (take (S i) fs)) as [[vs|e3] t3]; cbn in *; subst;
      (split; [reflexivity|]); constructor; auto; lia.
  - inversion H; subst. exists 0, f. split; [reflexivity|].
    split; [exact Ef|]. split; [intros j g Hj; lia|].
    cbn. rewrite Ef. cbn.
    split; [reflexivity|]. constructor; [lia|constructor].
Qed.

(** Joining futures that have all finished takes no time. *)
Lemma join_all_settled fs : forall now,
  Forall (fun f => fut_finish f <= now) fs -> (join_all now fs).2 = now.
Proof.
  induction fs as [|f fs IH]; intros now H; [reflexivity|].
  inversion H as [|? ? Hf Hrest]; subst. cbn.
  replace (now `max` fut_finish f) with now by lia.
  destruct (fut_outcome f); [|reflexivity].
  specialize (IH now Hrest).
  now destruct (join_all now fs) as [[vs|e] t].
Qed.

Lemma submit_all_records now units : forall p,
  (fun f => (fut_fn f, fut_args f, fut_outcome f)) <$>
    work_items (submit_all now units p) =
  ((fun f => (fut_fn f, fut_args f, fut_outcome f)) <$> work_items p) ++
  ((fun u : unit_ => (u.1, u.2, call u.1 u.2)) <$> units).
Proof.
  induction units as [|[fn args] units IH]; intros p; cbn.
  - now rewrite app_nil_r.
  - unfold submit_all in IH. rewrite IH. cbn.
    rewrite fmap_app, <- app_assoc. reflexivity.
Qed.

(** *** Entries that are tuples, list objects or strings *)

Lemma unpack_args v args w :
  args_of (heap w) v = Some args -> unpack v w = (Returned args, w).
Proof.
  destruct v; cbn [args_of unpack]; try discriminate.
  - now intros [= ->].
  - now intros [= ->].
  - apply list_items_some.
Qed.

Lemma args_of_insert h lf items v args :
  h !! lf = None \/ (forall l, v = VList l -> l <> lf) ->
  args_of h v = Some args -> args_of (<[lf := items]> h) v = Some args.
Proof.
  intros Hlf. destruct v; cbn [args_of]; try done.
  intros Hl. rewrite lookup_insert_ne; [exact Hl|].
  intros Heq. destruct Hlf as [Hnone|Hne]; [congruence|].
  exact (Hne l eq_refl (eq_sym Heq)).
Qed.

(** The submission loop for entries of any iterable kind. *)
Lemma submit_loop_gen lc lp lf cs ps (units : list unit_) : forall a fs w,
  heap w !! lc = Some cs ->
  heap w !! lp = Some ps ->
  heap w !! lf = Some fs ->
  lf <> lc -> lf <> lp ->
  (forall j u, units !! j = Some u ->
     cs !! (a + j) = Some u.1 /\
     exists v, ps !! (a + j) = Some v /\ args_of (heap w) v = Some u.2 /\
               (forall l, v = VList l -> l <> lf)) ->
  for_each (seq a (length units)) (fun i =>
    let* fn := getitem lc i in
    let* params := getitem lp i in
    let* args := unpack params in
    let* futureObj := submit fn args in
    append lf futureObj) w =
  (Returned tt,
   {| heap :=
        <[lf := fs ++ (VFuture <$>
                      seq (length (work_items (pool w))) (length units))]>
          (heap w);
      clock := clock w;
      pool := submit_all (clock w) units (pool w);
      log := log w |}).
Proof.
  induction units as [|u units IH]; intros a fs w Hc Hp Hf Hfc Hfp Hu.
  - cbn. rewrite app_nil_r, insert_id by done. now destruct w.
  - cbn [length seq for_each].
    destruct (Hu 0 u eq_refl) as [Hcu (v & Hpu & Hargs & Hvl)].
    rewrite Nat.add_0_r in Hcu, Hpu.
    unfold bind at 1.
    rewrite (bind_returned _ _ _ _ _ (getitem_some _ _ _ _ _ Hc Hcu)).
    rewrite (bind_returned _ _ _ _ _ (getitem_some _ _ _ _ _ Hp Hpu)).
    rewrite (bind_returned _ _ _ _ _ (unpack_args _ _ _ Hargs)).
    unfold bind at 1. cbn [submit].
    unfold append at 1. cbn [heap clock pool log]. rewrite Hf.
    rewrite (IH (S a) (fs ++ [VFuture (length (work_items (pool w)))])).
    + cbn [heap clock pool log work_items executor_submit submit_all foldl].
      rewrite insert_insert_eq, length_app, <- app_assoc. cbn [length app].
      rewrite Nat.add_1_r. reflexivity.
    + cbn. now rewrite lookup_insert_ne.
    + cbn. now rewrite lookup_insert_ne.
    + cbn. apply lookup_insert_eq.
    + done.
    + done.
    + intros j u' Hj. destruct (Hu (S j) u' Hj) as [Hcj (v' & Hpj & Ha' & Hv')].
      replace (S a + j) with (a + S j) by lia.
      split; [exact Hcj|]. exists v'. split; [exact Hpj|].
      split; [|exact Hv']. cbn [heap]. apply args_of_insert; [now right|].
      exact Ha'.
Qed.

(** *** The engine, with the time and the log of its scan *)

(** As [engine_run], for a list of argument tuples that may be longer than
    the list of callables and whose entries may be of any iterable kind,
    and with what the one scan of the futures does: [t0] is the caller's
    time after the scan and [l] the log. *)
Lemma engine_run_full fuel lc lp (units : list unit_) ps w :
  heap w !! lc = Some (fst <$> units) ->
  heap w !! lp = Some ps ->
  (forall j u, units !! j = Some u ->
     exists v, ps !! j = Some v /\ args_of (heap w) v = Some u.2) ->
  let n0 := length (work_items (pool w)) in
  let lf := fresh (dom (heap w)) in
  let ids := seq n0 (length units) in
  let h1 := <[lf := VFuture <$> ids]> (heap w) in
  let p1 := submit_all (clock w) units (pool w) in
  exists fs t0 l,
    work_items p1 = work_items (pool w) ++ fs /\
    ((Forall (fun f => fut_finish f <= clock w) fs /\
      t0 = clock w /\ l = log w ++ polled_done ids) \/
     (exists k f,
        fs !! k = Some f /\ clock w < fut_finish f /\
        Forall (fun f => fut_finish f <= clock w) (take k fs) /\
        t0 = clock w + 200 /\
        l = log w ++ polled_done (take k ids) ++
            [Polled (n0 + k) false; Slept 200])) /\
    _parralelizeCallables (S fuel) lc lp w =
    match join_all t0 fs with
    | (Ok vs, t) =>
        (Returned (fresh (dom h1)),
         {| heap := <[fresh (dom h1) := vs]> h1; clock := t; pool := p1;
            log := l |})
    | (Raise e, t) =>
        (Raised e, {| heap := h1; clock := t; pool := p1; log := l |})
    end.
Proof.
  intros Hc Hp Hps n0 lf ids h1 p1.
  assert (exists fs, work_items p1 = work_items (pool w) ++ fs) as [fs Hfs]
    by apply submit_all_prefix.
  assert (Hlen : length fs = length units).
  { assert (H : length (work_items p1) =
                length (work_items (pool w)) + length units)
      by apply submit_all_length.
    rewrite Hfs, length_app in H. lia. }
  pose (wa := {| heap := <[lf := []]> (heap w); clock := clock w;
                 pool := pool w; log := log w |}).
  assert (Hlc : lf <> lc) by (eapply fresh_loc_ne; eauto).
  assert (Hlp : lf <> lp) by (eapply fresh_loc_ne; eauto).
  assert (Hca : heap wa !! lc = Some (fst <$> units))
    by (cbn; now rewrite lookup_insert_ne).
  assert (Hpa : heap wa !! lp = Some ps)
    by (cbn; now rewrite lookup_insert_ne).
  pose (wb := {| heap := h1; clock := clock w; pool := p1; log := log w |}).
  assert (Hids : Forall2 (fun id f => work_items (pool wb) !! id = Some f)
                   ids fs).
  { cbn. rewrite Hfs. unfold ids, n0. rewrite <- Hlen. apply lookup_appended. }
  destruct (scan_spec ids fs wb Hids) as (t0 & l & Hscan & Hcase).
  exists fs, t0, l. split; [assumption|]. split.
  { cbn [clock log wb] in Hcase.
    destruct Hcase as [Hdone|(k & id & f & Hk & Hfk & Hlt & Htake & Ht & Hl)];
      [now left|].
    right. exists k, f. unfold ids in Hk. apply lookup_seq in Hk as [-> _].
    repeat split; assumption. }
  unfold _parralelizeCallables.
  rewrite (bind_returned (new_list []) _ w lf wa eq_refl).
  rewrite (bind_returned _ _ _ _ _ (len_some _ _ _ Hca)).
  rewrite length_fmap.
  assert (Hunits : forall j u, units !! j = Some u ->
            (fst <$> units) !! (0 + j) = Some u.1 /\
            exists v, ps !! (0 + j) = Some v /\
                      args_of (heap wa) v = Some u.2 /\
                      (forall l, v = VList l -> l <> lf)).
  { intros j u Hj. change (0 + j) with j.
    rewrite list_lookup_fmap, Hj. split; [reflexivity|].
    destruct (Hps j u Hj) as (v & Hv & Hargs). exists v.
    split; [exact Hv|]. split.
    - cbn [heap wa]. apply args_of_insert; [|exact Hargs].
      left. apply not_elem_of_dom, is_fresh.
    - intros l' -> Heq. cbn [args_of] in Hargs.
      assert (Hnone : heap w !! l' = None)
        by (rewrite Heq; apply not_elem_of_dom, is_fresh).
      congruence. }
  assert (Hloop := submit_loop_gen lc lp lf _ _ units 0 [] wa Hca Hpa
                     (lookup_insert_eq _ _ _) Hlc Hlp Hunits).
  cbn [app heap clock pool log wa] in Hloop.
  rewrite insert_insert_eq in Hloop.
  rewrite (bind_returned _ _ _ _ _ Hloop).
  assert (Hlf : heap wb !! lf = Some (VFuture <$> ids))
    by apply lookup_insert_eq.
  assert (Hw : wait_resolved (S fuel) lf wb =
               (Returned true,
                {| heap := h1; clock := t0; pool := p1; log := l |})).
  { rewrite wait_resolved_once.
    rewrite (bind_returned _ _ _ _ _ (list_items_some _ _ _ Hlf)).
    now rewrite (bind_returned _ _ _ _ _ Hscan). }
  rewrite (bind_returned _ _ _ _ _ Hw).
  pose (wc := {| heap := h1; clock := t0; pool := p1; log := l |}).
  fold wc.
  assert (Hlf' : heap wc !! lf = Some (VFuture <$> ids))
    by apply lookup_insert_eq.
  rewrite (bind_returned _ _ _ _ _ (list_items_some _ _ _ Hlf')).
  unfold bind at 1.
  rewrite (comprehension_result ids fs wc Hids).
  cbn [clock wc].
  destruct (join_all t0 fs) as [[vs|e] t]; reflexivity.
Qed.


Lemma tuples_lookup h (units : list unit_) j u :
  units !! j = Some u ->
  exists v, ((fun u : unit_ => VTuple u.2) <$> units) !! j = Some v /\
            args_of h v = Some u.2.
Proof. intros H. exists (VTuple u.2). now rewrite list_lookup_fmap, H. Qed.

(** X2.  Whatever the fuel (at least one), the completion-detection loop
    makes one scan and is left: if every future is done it changes nothing
    but the log of its polls; otherwise it polls up to the first future that
    is not done, sleeps 200 ms once and polls no further. *)
Theorem completion_loop_scans_once fuel lf ids fs w :
  heap w !! lf = Some (VFuture <$> ids) ->
  Forall2 (fun id f => work_items (pool w) !! id = Some f) ids fs ->
  exists t l,
    wait_resolved (S fuel) lf w =
    (Returned true,
     {| heap := heap w; clock := t; pool := pool w; log := l |}) /\
    ((Forall (fun f => fut_finish f <= clock w) fs /\
      t = clock w /\ l = log w ++ polled_done ids) \/
     (exists k id f,
        ids !! k = Some id /\ fs !! k = Some f /\
        clock w < fut_finish f /\
        Forall (fun f => fut_finish f <= clock w) (take k fs) /\
        t = clock w + 200 /\
        l = log w ++ polled_done (take k ids) ++ [Polled id false; Slept 200])).
Proof.
  intros Hlf Hids.
  destruct (scan_spec ids fs w Hids) as (t & l & Hscan & Hcase).
  exists t, l. split; [|exact Hcase].
  rewrite wait_resolved_once.
  rewrite (bind_returned _ _ _ _ _ (list_items_some _ _ _ Hlf)).
  now rewrite (bind_returned _ _ _ _ _ Hscan).
Qed.

(** X3.  When the engine returns, every unit of the batch has finished,
    and the engine returns at the latest of: the time of the call, the end
    of its one sleep, and the finish of a unit. *)
Theorem returns_when_last_unit_finishes fuel lc lp (units : list unit_) w
    lr w' :
  heap w !! lc = Some (fst <$> units) ->
  heap w !! lp = Some ((fun u => VTuple u.2) <$> units) ->
  _parralelizeCallables (S fuel) lc lp w = (Returned lr, w') ->
  Forall (fun f => fut_finish f <= clock w') (added w w') /\
  (clock w' = clock w \/ clock w' = clock w + 200 \/
   exists f, f ∈ added w w' /\ clock w' = fut_finish f).
Proof.
  intros Hc Hp Hrun.
  destruct (engine_run_full fuel lc lp units _ w Hc Hp
              (tuples_lookup (heap w) units))
    as (fs & t0 & l & Hfs & Hcase & Hrun').
  rewrite Hrun' in Hrun.
  destruct (join_all t0 fs) as [[vs|e] t] eqn:E; [|discriminate].
  inversion Hrun; subst. unfold added. cbn [pool clock].
  rewrite Hfs, drop_app_length. split.
  - exact (join_all_finished fs t0 vs t E).
  - destruct (join_all_time fs t0) as [Ht|(f & Hf & Ht)]; rewrite E in Ht;
      cbn in Ht.
    + subst t.
      destruct Hcase as [(_ & -> & _)|(k & f & _ & _ & _ & -> & _)]; auto.
    + right. right. eauto.
Qed.

(** X4.  When units raise, the engine raises as soon as the failing unit
    of lowest index and the units before it have finished (and its one scan
    is over): it does not wait for any later unit. *)
Theorem raises_when_failing_unit_finishes fuel lc lp (units : list unit_) w
    i u e :
  heap w !! lc = Some (fst <$> units) ->
  heap w !! lp = Some ((fun u => VTuple u.2) <$> units) ->
  units !! i = Some u ->
  call u.1 u.2 = Raise e ->
  (forall j u', j < i -> units !! j = Some u' ->
     exists v, call u'.1 u'.2 = Ok v) ->
  exists w',
    _parralelizeCallables (S fuel) lc lp w = (Raised e, w') /\
    Forall (fun f => fut_finish f <= clock w') (take (S i) (added w w')) /\
    (clock w' = clock w \/ clock w' = clock w + 200 \/
     exists f, f ∈ take (S i) (added w w') /\ clock w' = fut_finish f).
Proof.
  intros Hc Hp Hu He Hlow.
  destruct (engine_run_full fuel lc lp units _ w Hc Hp
              (tuples_lookup (heap w) units))
    as (fs & t0 & l & Hfs & Hcase & Hrun).
  pose proof (added_outcomes _ _ _ _ Hfs) as Hout.
  assert (Hat : forall j u', units !! j = Some u' ->
            exists f, fs !! j = Some f /\ fut_outcome f = call u'.1 u'.2).
  { intros j u' Hj. apply (f_equal (fun l => l !! j)) in Hout.
    rewrite !list_lookup_fmap, Hj in Hout. cbn in Hout.
    destruct (fs !! j) as [f|]; [|discriminate]. cbn in Hout.
    exists f. split; congruence. }
  destruct (join_all t0 fs) as [[vs|e'] t] eqn:E.
  { exfalso. pose proof (join_all_collect fs t0) as Hcol. rewrite E in Hcol.
    cbn in Hcol. symmetry in Hcol. apply collect_ok in Hcol.
    destruct (Hat i u Hu) as (f & Hf & Hfo).
    apply (f_equal (fun l => l !! i)) in Hcol.
    rewrite !list_lookup_fmap, Hf in Hcol. cbn in Hcol.
    destruct (vs !! i); cbn in Hcol; congruence. }
  destruct (join_all_raise fs t0 e' t E)
    as (i' & f & Hi' & Hf & Hbefore & Ht & Hall).
  assert (i' = i) as ->.
  { destruct (lt_eq_lt_dec i' i) as [[Hlt| ->]|Hgt]; [|reflexivity|].
    - destruct (lookup_lt_is_Some_2 units i') as [u' Hu'].
      { apply lookup_lt_Some in Hu. lia. }
      destruct (Hlow i' u' Hlt Hu') as [v Hv].
      destruct (Hat i' u' Hu') as (f' & Hf' & Hfo). congruence.
    - destruct (Hat i u Hu) as (f' & Hf' & Hfo).
      destruct (Hbefore i f' Hgt Hf') as [v Hv]. congruence. }
  assert (e' = e) as ->.
  { destruct (Hat i u Hu) as (f' & Hf' & Hfo). congruence. }
  eexists. split; [exact Hrun|]. unfold added. cbn [pool clock].
  rewrite Hfs, drop_app_length. split; [exact Hall|].
  destruct (join_all_time (take (S i) fs) t0) as [Ht0|(g & Hg & Htg)].
  - rewrite <- Ht in Ht0. subst t.
    destruct Hcase as [(_ & -> & _)|(k & g & _ & _ & _ & -> & _)]; auto.
  - right. right. exists g. split; [exact Hg | congruence].
Qed.

(** X5.  With every unit finished at the first scan, the engine returns
    or raises without any delay; with a unit still running then, the call
    takes at least 200 ms, however short the unit is. *)
Theorem takes_200ms_unless_settled fuel lc lp (units : list unit_) w o w' :
  heap w !! lc = Some (fst <$> units) ->
  heap w !! lp = Some ((fun u => VTuple u.2) <$> units) ->
  _parralelizeCallables (S fuel) lc lp w = (o, w') ->
  (Forall (fun f => fut_finish f <= clock w) (added w w') ->
   clock w' = clock w) /\
  (Exists (fun f => clock w < fut_finish f) (added w w') ->
   clock w + 200 <= clock w').
Proof.
  intros Hc Hp Hrun.
  destruct (engine_run_full fuel lc lp units _ w Hc Hp
              (tuples_lookup (heap w) units))
    as (fs & t0 & l & Hfs & Hcase & Hrun').
  rewrite Hrun' in Hrun.
  assert (Hw' : added w w' = fs /\ clock w' = (join_all t0 fs).2).
  { unfold added.
    destruct (join_all t0 fs) as [[vs|e] t]; inversion Hrun; subst;
      cbn [pool clock snd]; now rewrite Hfs, drop_app_length. }
  destruct Hw' as [-> ->]. split.
  - intros Hall.
    destruct Hcase as [(_ & -> & _)|(k & f & Hk & Hlt & _)].
    + now apply join_all_settled.
    + rewrite Forall_forall in Hall.
      specialize (Hall f (list_elem_of_lookup_2 _ _ _ Hk)). lia.
  - intros Hex. pose proof (join_all_mono fs t0) as Hm.
    destruct Hcase as [(Hall & _ & _)|(k & f & _ & _ & _ & -> & _)]; [|lia].
    apply Exists_exists in Hex as (f & Hf & Hlt).
    rewrite Forall_forall in Hall. specialize (Hall f Hf). lia.
Qed.

(** X6.  Whether the engine returns or raises, it has handed every unit
    of the batch to the executor, in order and behind the items the executor
    already had, and each unit has been called: a failing unit cancels
    nothing. *)
Theorem every_unit_is_executed fuel lc lp (units : list unit_) w o w' :
  heap w !! lc = Some (fst <$> units) ->
  heap w !! lp = Some ((fun u => VTuple u.2) <$> units) ->
  _parralelizeCallables (S fuel) lc lp w = (o, w') ->
  take (length (work_items (pool w))) (work_items (pool w')) =
    work_items (pool w) /\
  (fun f => (fut_fn f, fut_args f, fut_outcome f)) <$> added w w' =
    (fun u : unit_ => (u.1, u.2, call u.1 u.2)) <$> units.
Proof.
  intros Hc Hp Hrun.
  destruct (engine_run_full fuel lc lp units _ w Hc Hp
              (tuples_lookup (heap w) units))
    as (fs & t0 & l & Hfs & _ & Hrun').
  rewrite Hrun' in Hrun.
  assert (Hpool : pool w' = submit_all (clock w) units (pool w)).
  { destruct (join_all t0 fs) as [[vs|e] t]; now inversion Hrun. }
  unfold added. rewrite Hpool, Hfs, take_app_length, drop_app_length.
  split; [reflexivity|].
  pose proof (submit_all_records (clock w) units (pool w)) as Hrec.
  rewrite Hfs, fmap_app in Hrec. now apply app_inv_head in Hrec.
Qed.

Lemma engine_full_observe fuel lc lp (units : list unit_) ps w :
  heap w !! lc = Some (fst <$> units) ->
  heap w !! lp = Some ps ->
  (forall j u, units !! j = Some u ->
     exists v, ps !! j = Some v /\ args_of (heap w) v = Some u.2) ->
  observe (_parralelizeCallables (S fuel) lc lp) w =
    outcome_of (collect ((fun u => call u.1 u.2) <$> units)) /\
  submitted (_parralelizeCallables (S fuel) lc lp) w = units.
Proof.
  intros Hc Hp Hps.
  destruct (engine_run_full fuel lc lp units _ w Hc Hp Hps)
    as (fs & t0 & l & Hfs & _ & Hrun).
  split.
  - unfold observe. rewrite Hrun.
    rewrite <- (added_outcomes _ _ _ _ Hfs), <- (join_all_collect fs t0).
    destruct (join_all t0 fs) as [[vs|e] t]; cbn; [|reflexivity].
    now rewrite lookup_insert_eq.
  - unfold submitted. rewrite Hrun.
    destruct (join_all t0 fs) as [[vs|e] t]; cbn [snd pool];
      rewrite Hfs, drop_app_length; exact (added_units _ _ _ _ Hfs).
Qed.

(** X7.  Argument tuples beyond the number of callables are ignored,
    whatever they are: the batch gives what it gives without them. *)
Theorem extra_tuples_are_ignored fuel lc lp (units : list unit_) extra w :
  heap w !! lc = Some (fst <$> units) ->
  heap w !! lp = Some (((fun u => VTuple u.2) <$> units) ++ extra) ->
  observe (_parralelizeCallables (S fuel) lc lp) w =
    outcome_of (collect ((fun u => call u.1 u.2) <$> units)) /\
  submitted (_parralelizeCallables (S fuel) lc lp) w = units.
Proof.
  intros Hc Hp. apply (engine_full_observe fuel lc lp units _ w Hc Hp).
  intros j u Hj. exists (VTuple u.2). split; [|reflexivity].
  apply lookup_app_l_Some. now rewrite list_lookup_fmap, Hj.
Qed.




(** *** A list of argument tuples that is too short or holds a value that
    is no tuple *)

Lemma for_each_app {A} (xs ys : list A) (body : A -> M unit) w :
  for_each (xs ++ ys) body w =
  (for_each xs body ;; for_each ys body) w.
Proof.
  revert w. induction xs as [|x xs IH]; intros w; [reflexivity|].
  cbn [app for_each]. unfold bind in *.
  destruct (body x w) as [[[]| |] w1]; [|reflexivity..].
  apply IH.
Qed.

(** The engine submits the units before the first entry of the list of
    argument tuples that is missing or cannot be unpacked, and raises there:
    there is no scan, no sleep and no result. *)
Lemma engine_stops_at_bad_entry fuel lc lp cs ps (units : list unit_) e w :
  heap w !! lc = Some cs ->
  heap w !! lp = Some ps ->
  (forall j u, units !! j = Some u ->
     cs !! j = Some u.1 /\ ps !! j = Some (VTuple u.2)) ->
  length units < length cs ->
  (ps !! length units = None /\ e = IndexError) \/
  (exists v, ps !! length units = Some v /\ not_iterable v /\ e = TypeError) ->
  _parralelizeCallables fuel lc lp w =
  (Raised e,
   {| heap :=
        <[fresh (dom (heap w)) :=
            VFuture <$> seq (length (work_items (pool w))) (length units)]>
          (heap w);
      clock := clock w;
      pool := submit_all (clock w) units (pool w);
      log := log w |}).
Proof.
  intros Hc Hp Hunits Hlt Hbad.
  set (lf := fresh (dom (heap w))).
  pose (wa := {| heap := <[lf := []]> (heap w); clock := clock w;
                 pool := pool w; log := log w |}).
  assert (Hlc : lf <> lc) by (eapply fresh_loc_ne; eauto).
  assert (Hlp : lf <> lp) by (eapply fresh_loc_ne; eauto).
  assert (Hca : heap wa !! lc = Some cs) by (cbn; now rewrite lookup_insert_ne).
  assert (Hpa : heap wa !! lp = Some ps) by (cbn; now rewrite lookup_insert_ne).
  unfold _parralelizeCallables.
  rewrite (bind_returned (new_list []) _ w lf wa eq_refl).
  rewrite (bind_returned _ _ _ _ _ (len_some _ _ _ Hca)).
  replace (length cs) with (length units + S (length cs - S (length units)))
    by lia.
  rewrite seq_app. apply bind_raised. rewrite for_each_app.
  assert (Hloop := submit_loop lc lp lf cs ps units 0 [] wa Hca Hpa
                     (lookup_insert_eq _ _ _) Hlc Hlp Hunits).
  cbn [app heap clock pool log wa] in Hloop.
  rewrite insert_insert_eq in Hloop.
  rewrite (bind_returned _ _ _ _ _ Hloop).
  cbn [seq for_each Nat.add]. apply bind_raised.
  destruct (lookup_lt_is_Some_2 cs (length units) Hlt) as [c Hcu].
  erewrite (bind_returned (getitem lc _)); cycle 1.
  { eapply getitem_some; [|exact Hcu]. cbn. now rewrite lookup_insert_ne. }
  assert (Hps : heap {| heap := <[lf := VFuture <$>
                  seq (length (work_items (pool w))) (length units)]> (heap w);
                  clock := clock w;
                  pool := submit_all (clock w) units (pool w);
                  log := log w |} !! lp = Some ps)
    by (cbn; now rewrite lookup_insert_ne).
  destruct Hbad as [[Hnone ->]|(v & Hv & Hni & ->)].
  - apply bind_raised. unfold getitem.
    rewrite (bind_returned _ _ _ _ _ (list_items_some _ _ _ Hps)).
    now rewrite Hnone.
  - rewrite (bind_returned _ _ _ _ _ (getitem_some _ _ _ _ _ Hps Hv)).
    apply bind_raised. now destruct v.
Qed.


Lemma zip_units cs (argss : list (list value)) j (u : unit_) :
  zip cs argss !! j = Some u ->
  cs !! j = Some u.1 /\ argss !! j = Some u.2.
Proof.
  intros H. apply lookup_zip_with_Some in H as (c & a & -> & Hc & Ha).
  now split.
Qed.

Lemma stopped_world_added units w h t l :
  (fun f => (fut_fn f, fut_args f)) <$>
    added w {| heap := h; clock := t;
               pool := submit_all (clock w) units (pool w); log := l |} =
  units.
Proof.
  unfold added. cbn [pool].
  destruct (submit_all_prefix (clock w) units (pool w)) as [fs Hfs].
  rewrite Hfs, drop_app_length. exact (added_units _ _ _ _ Hfs).
Qed.

(** X8.  With fewer argument tuples than callables the engine raises
    [IndexError], at once and without a scan; the units that have a tuple
    have been handed to the executor all the same, and their results are
    never collected. *)
Theorem short_tuple_list_raises_index_error fuel lc lp cs argss w :
  heap w !! lc = Some cs ->
  heap w !! lp = Some (VTuple <$> argss) ->
  length argss < length cs ->
  exists w',
    _parralelizeCallables fuel lc lp w = (Raised IndexError, w') /\
    clock w' = clock w /\ log w' = log w /\
    (fun f => (fut_fn f, fut_args f)) <$> added w w' = zip cs argss.
Proof.
  intros Hc Hp Hlt.
  assert (Hlen : length (zip cs argss) = length argss)
    by (apply length_zip_with_r; lia).
  eexists. split.
  - apply (engine_stops_at_bad_entry fuel lc lp cs _ (zip cs argss)
             IndexError w Hc Hp).
    + intros j u Hj. destruct (zip_units _ _ _ _ Hj) as [Hcj Haj].
      split; [exact Hcj|]. now rewrite list_lookup_fmap, Haj.
    + lia.
    + left. split; [|reflexivity]. apply lookup_ge_None.
      rewrite length_fmap. lia.
  - split; [reflexivity|]. split; [reflexivity|]. apply stopped_world_added.
Qed.

(** X9.  An entry of the list of argument tuples that cannot be unpacked
    (an integer, a boolean, [None], a callable, a future) makes the engine
    raise [TypeError] when it reaches it, at once and without a scan; the
    units before it have been handed to the executor all the same. *)
Theorem entry_not_iterable_raises_type_error fuel lc lp cs argss v rest w :
  heap w !! lc = Some cs ->
  heap w !! lp = Some ((VTuple <$> argss) ++ v :: rest) ->
  not_iterable v ->
  length argss < length cs ->
  exists w',
    _parralelizeCallables fuel lc lp w = (Raised TypeError, w') /\
    clock w' = clock w /\ log w' = log w /\
    (fun f => (fut_fn f, fut_args f)) <$> added w w' = zip cs argss.
Proof.
  intros Hc Hp Hv Hlt.
  assert (Hlen : length (zip cs argss) = length argss)
    by (apply length_zip_with_r; lia).
  eexists. split.
  - apply (engine_stops_at_bad_entry fuel lc lp cs _ (zip cs argss)
             TypeError w Hc Hp).
    + intros j u Hj. destruct (zip_units _ _ _ _ Hj) as [Hcj Haj].
      split; [exact Hcj|]. apply lookup_app_l_Some.
      now rewrite list_lookup_fmap, Haj.
    + lia.
    + right. exists v. split; [|now split].
      rewrite Hlen, <- (length_fmap VTuple argss).
      now rewrite list_lookup_middle.
  - split; [reflexivity|]. split; [reflexivity|]. apply stopped_world_added.
Qed.

(** *** The empty batch *)

Lemma engine_empty fuel lc lp w :
  heap w !! lc = Some [] ->
  let lf := fresh (dom (heap w)) in
  let h1 := <[lf := []]> (heap w) in
  _parralelizeCallables (S fuel) lc lp w =
  (Returned (fresh (dom h1)),
   {| heap := <[fresh (dom h1) := []]> h1; clock := clock w;
      pool := pool w; log := log w |}).
Proof.
  intros Hc lf h1.
  pose (wa := {| heap := h1; clock := clock w; pool := pool w;
                 log := log w |}).
  assert (Hca : heap wa !! lc = Some []).
  { cbn [heap wa]. unfold h1.
    rewrite lookup_insert_ne; [exact Hc|]. eapply fresh_loc_ne, Hc. }
  assert (Hlf : heap wa !! lf = Some []) by apply lookup_insert_eq.
  unfold _parralelizeCallables.
  rewrite (bind_returned (new_list []) _ w lf wa eq_refl).
  rewrite (bind_returned _ _ _ _ _ (len_some _ _ _ Hca)).
  cbn [length seq for_each].
  rewrite (bind_returned (ret tt) _ wa tt wa eq_refl).
  erewrite (bind_returned (wait_resolved _ _)); cycle 1.
  { rewrite wait_resolved_once.
    rewrite (bind_returned _ _ _ _ _ (list_items_some _ _ _ Hlf)).
    reflexivity. }
  rewrite (bind_returned _ _ _ _ _ (list_items_some _ _ _ Hlf)).
  reflexivity.
Qed.

(** X1.  With an empty list of callables the engine returns a new empty
    list at once: it reads no argument tuple (the list of tuples may hold
    anything), hands nothing to the executor, and neither polls nor
    sleeps. *)
Theorem empty_batch_returns_at_once fuel lc lp w :
  heap w !! lc = Some [] ->
  exists lr w',
    _parralelizeCallables (S fuel) lc lp w = (Returned lr, w') /\
    heap w' !! lr = Some [] /\ heap w !! lr = None /\
    clock w' = clock w /\ pool w' = pool w /\ log w' = log w.
Proof.
  intros Hc. eexists _, _. split; [now apply engine_empty|].
  cbn [heap clock pool log]. split; [apply lookup_insert_eq|].
  split; [|repeat split; reflexivity].
  apply not_elem_of_dom. intros Hin.
  apply (is_fresh (dom (<[fresh (dom (heap w)) := []]> (heap w)))).
  rewrite dom_insert_L in Hin |- *. apply elem_of_union. now right.
Qed.


(** *** The result is always a new list object *)

Lemma grows_ret {A} (a : A) : grows (ret a).
Proof. intros w o w' [= _ <-]. reflexivity. Qed.

Lemma grows_raise {A} e : grows (@raise A e).
Proof. intros w o w' [= _ <-]. reflexivity. Qed.

Lemma grows_out_of_fuel {A} : grows (@out_of_fuel A).
Proof. intros w o w' [= _ <-]. reflexivity. Qed.

Lemma grows_bind {A B} (m : M A) (k : A -> M B) :
  grows m -> (forall a, grows (k a)) -> grows (bind m k).
Proof.
  intros Hm Hk w o w' Hrun. unfold bind in Hrun.
  destruct (m w) as [[a| |] w1] eqn:E.
  - etransitivity; [exact (Hm _ _ _ E) | exact (Hk _ _ _ _ Hrun)].
  - inversion Hrun; subst. exact (Hm _ _ _ E).
  - inversion Hrun; subst. exact (Hm _ _ _ E).
Qed.

Lemma grows_for_each {A} (xs : list A) (body : A -> M unit) :
  (forall x, grows (body x)) -> grows (for_each xs body).
Proof.
  intros Hb. induction xs as [|x xs IH]; cbn [for_each].
  - apply grows_ret.
  - apply grows_bind; auto.
Qed.

Lemma grows_comprehension {A B} (f : A -> M B) (xs : list A) :
  (forall x, grows (f x)) -> grows (comprehension f xs).
Proof.
  intros Hf. induction xs as [|x xs IH]; cbn [comprehension].
  - apply grows_ret.
  - apply grows_bind; [auto|]. intros y.
    apply grows_bind; [auto|]. intros ys. apply grows_ret.
Qed.

Lemma grows_while {S} fuel (cond : S -> bool) (body : S -> M S) :
  (forall s, grows (body s)) -> forall s, grows (while_ fuel cond body s).
Proof.
  intros Hb. induction fuel as [|fuel IH]; intros s; cbn [while_].
  - destruct (cond s); [apply grows_out_of_fuel | apply grows_ret].
  - destruct (cond s); [|apply grows_ret]. apply grows_bind; auto.
Qed.

Lemma grows_new_list items : grows (new_list items).
Proof.
  intros w o w' [= _ <-]. cbn [heap]. rewrite dom_insert_L.
  apply union_subseteq_r.
Qed.

Lemma grows_list_items l : grows (list_items l).
Proof.
  intros w o w' Hrun. unfold list_items in Hrun.
  destruct (heap w !! l); inversion Hrun; reflexivity.
Qed.

Lemma grows_append l v : grows (append l v).
Proof.
  intros w o w' Hrun. unfold append in Hrun.
  destruct (heap w !! l); inversion Hrun; [|reflexivity].
  cbn [heap]. rewrite dom_insert_L. apply union_subseteq_r.
Qed.

Lemma grows_time_sleep ms : grows (time_sleep ms).
Proof. intros w o w' [= _ <-]. reflexivity. Qed.

Lemma grows_submit fn args : grows (submit fn args).
Proof. intros w o w' [= _ <-]. reflexivity. Qed.

Lemma grows_future_done v : grows (future_done v).
Proof.
  destruct v; cbn [future_done]; try apply grows_raise.
  intros w o w' Hrun.
  destruct (work_items (pool w) !! id); inversion Hrun; reflexivity.
Qed.

Lemma grows_future_result v : grows (future_result v).
Proof.
  destruct v; cbn [future_result]; try apply grows_raise.
  intros w o w' Hrun.
  destruct (work_items (pool w) !! id) as [f|]; [|inversion Hrun; reflexivity].
  destruct (fut_outcome f); inversion Hrun; reflexivity.
Qed.

Create HintDb growth.
#[local] Hint Resolve grows_ret grows_raise grows_out_of_fuel grows_new_list
  grows_list_items grows_append grows_time_sleep grows_submit
  grows_future_done grows_future_result : growth.

(** Walks down a run as [frame] does, for the growth of the store. *)
Ltac growth :=
  repeat first
    [ solve [eauto with growth]
    | apply grows_for_each; intros ?
    | apply grows_comprehension; intros ?
    | apply grows_while; intros ?
    | apply grows_bind; [|intros ?]
    | match goal with
      | |- grows (match ?x with _ => _ end) => destruct x
      | |- grows (if ?b then _ else _) => destruct b
      end ].

Lemma grows_scan futureObjs : grows (scan futureObjs).
Proof.
  induction futureObjs as [|future rest IH]; cbn [scan]; growth.
Qed.

#[local] Hint Resolve grows_scan : growth.

Lemma returns_new_list_new items : returns_new_list (new_list items).
Proof.
  intros w l w' [= <- <-]. cbn [heap]. split.
  - apply not_elem_of_dom, is_fresh.
  - rewrite lookup_insert_eq. eauto.
Qed.

Lemma returns_new_list_bind {A} (m : M A) (k : A -> M loc) :
  grows m -> (forall a, returns_new_list (k a)) -> returns_new_list (bind m k).
Proof.
  intros Hm Hk w l w' Hrun. unfold bind in Hrun.
  destruct (m w) as [[a| |] w1] eqn:E; try discriminate.
  destruct (Hk a w1 l w' Hrun) as [Hnone Hsome]. split; [|exact Hsome].
  apply not_elem_of_dom. intros Hin.
  apply not_elem_of_dom in Hnone. apply Hnone. exact (Hm _ _ _ E _ Hin).
Qed.

(** Reaches the last step of a run, which makes the list it returns. *)
Ltac to_last_step :=
  repeat match goal with
         | |- returns_new_list (bind _ _) =>
             apply returns_new_list_bind; [growth | intros ?]
         end.

Lemma engine_returns_new_list fuel lc lp :
  returns_new_list (_parralelizeCallables fuel lc lp).
Proof.
  unfold _parralelizeCallables, wait_resolved, len, getitem, unpack.
  to_last_step. apply returns_new_list_new.
Qed.

(** X10.  Whenever the engine or a batched catalog operation returns, on
    any input, the list it returns is a list object that did not exist
    before the call: never the caller's list of callables, of tuples or of
    items, nor any other list the caller holds. *)
Theorem result_is_a_new_list fuel lc lp l :
  returns_new_list (_parralelizeCallables fuel lc lp) /\
  returns_new_list (enrich_companies fuel l) /\
  returns_new_list (enrich_people fuel l) /\
  returns_new_list (batch_searches fuel l) /\
  returns_new_list (batch_safe_get_company_by_urn fuel l).
Proof.
  split; [|split; [|split; [|split]]].
  - apply engine_returns_new_list.
  - unfold enrich_companies, len. to_last_step.
    apply engine_returns_new_list.
  - unfold enrich_people, len. to_last_step.
    apply engine_returns_new_list.
  - unfold batch_searches, len. to_last_step.
    apply engine_returns_new_list.
  - unfold batch_safe_get_company_by_urn, len. to_last_step.
    apply engine_returns_new_list.
Qed.


(** *** Batched searches and the wrapper's own search *)

(** X11.  For argument tuples that give all four parameters,
    [batch_searches] returns item by item what the wrapper's [search]
    returns on them.  For tuples that give the query only, the wrapper's
    defaults (page 0, page size 50, results included) are not filled in: the
    client is called with the query alone, so the two agree when the client
    treats a lone query like the wrapper's defaults. *)
Theorem batch_searches_and_search fuel l w :
  (forall items : list (value * value * value * value),
     heap w !! l =
       Some ((fun '(q, page, size, incl) => VTuple [q; page; size; incl])
               <$> items) ->
     observe (batch_searches (S fuel) l) w =
     outcome_of
       (collect
          ((fun '(q, page, size, incl) =>
              search self q (Some page) (Some size) (Some incl)) <$> items)))
  /\
  (forall queries : list value,
     heap w !! l = Some ((fun q => VTuple [q]) <$> queries) ->
     observe (batch_searches (S fuel) l) w =
       outcome_of
         (collect ((fun q => search_raw (rawClient self) [q]) <$> queries)) /\
     ((forall q,
         search_raw (rawClient self) [q] = search self q None None None) ->
      observe (batch_searches (S fuel) l) w =
        outcome_of
          (collect ((fun q => search self q None None None) <$> queries)))).
Proof.
  split.
  - intros items Hl.
    assert (Hl' : heap w !! l =
              Some (VTuple <$> ((fun '(q, page, size, incl) =>
                                   [q; page; size; incl]) <$> items))).
    { rewrite Hl, <- list_fmap_compose. f_equal.
      apply list_fmap_ext. now intros i [[[q page] size] incl] _. }
    destruct (via_engine_observe fuel _ _ w
                (batch_searches_via_engine fuel l _ w Hl')) as [-> _].
    rewrite <- !list_fmap_compose. do 2 f_equal.
    apply list_fmap_ext. now intros i [[[q page] size] incl] _.
  - intros queries Hl.
    assert (Hl' : heap w !! l =
              Some (VTuple <$> ((fun q => [q]) <$> queries)))
      by now rewrite Hl, <- list_fmap_compose.
    destruct (via_engine_observe fuel _ _ w
                (batch_searches_via_engine fuel l _ w Hl')) as [Ho _].
    rewrite <- !list_fmap_compose in Ho. split; [exact Ho|].
    intros Hdef. rewrite Ho. do 2 f_equal.
    apply list_fmap_ext. intros i q _. cbn. apply Hdef.
Qed.

(** *** Batched operations on an empty list *)

Lemma fresh_in_larger (h : gmap loc (list value)) l items l' items' :
  h !! l = Some items -> fresh (dom (<[l' := items']> h)) <> l.
Proof.
  intros Hl. destruct (decide (l' = l)) as [->|Hne].
  - eapply fresh_loc_ne. apply lookup_insert_eq.
  - eapply fresh_loc_ne. rewrite lookup_insert_ne by done. exact Hl.
Qed.

(** X12.  On an empty list every batched catalog operation returns a new
    empty list at once: nothing is handed to the executor, and there is no
    poll and no sleep. *)
Theorem batched_on_empty_list fuel l w :
  heap w !! l = Some [] ->
  Forall
    (fun op : nat -> loc -> M loc =>
       exists lr w',
         op (S fuel) l w = (Returned lr, w') /\
         heap w' !! lr = Some [] /\
         clock w' = clock w /\ pool w' = pool w /\ log w' = log w)
    [enrich_companies; enrich_people; batch_searches;
     batch_safe_get_company_by_urn].
Proof.
  intros Hl.
  assert (Hfin : forall lc lp w2,
            heap w2 !! lc = Some [] ->
            clock w2 = clock w -> pool w2 = pool w -> log w2 = log w ->
            exists lr w',
              _parralelizeCallables (S fuel) lc lp w2 = (Returned lr, w') /\
              heap w' !! lr = Some [] /\
              clock w' = clock w /\ pool w' = pool w /\ log w' = log w).
  { intros lc lp w2 Hc Hclock Hpool Hlog. eexists _, _.
    split; [now apply engine_empty|]. cbn [heap clock pool log].
    split; [apply lookup_insert_eq | repeat split; assumption]. }
  set (la := fresh (dom (heap w))).
  assert (Hla : la <> l) by (eapply fresh_loc_ne, Hl).
  repeat constructor.
  - unfold enrich_companies.
    rewrite (bind_returned _ _ _ _ _ (list_items_some _ _ _ Hl)).
    rewrite (bind_returned _ _ _ _ _ (comprehension_ret _ [] w)).
    rewrite (bind_returned (new_list _) _ w _ _ eq_refl).
    rewrite (bind_returned (new_list _) _ _ _ _ eq_refl).
    erewrite (bind_returned (len l)); cycle 1.
    { apply len_some. cbn [heap].
      rewrite lookup_insert_ne by (eapply fresh_in_larger; exact Hl).
      rewrite lookup_insert_ne by exact Hla. exact Hl. }
    cbn [length seq for_each].
    rewrite (bind_returned (ret tt) _ _ tt _ eq_refl).
    apply Hfin; try reflexivity. cbn [heap]. apply lookup_insert_eq.
  - unfold enrich_people.
    rewrite (bind_returned _ _ _ _ _ (list_items_some _ _ _ Hl)).
    rewrite (bind_returned _ _ _ _ _ (comprehension_ret _ [] w)).
    rewrite (bind_returned (new_list _) _ w _ _ eq_refl).
    rewrite (bind_returned (new_list _) _ _ _ _ eq_refl).
    erewrite (bind_returned (len l)); cycle 1.
    { apply len_some. cbn [heap].
      rewrite lookup_insert_ne by (eapply fresh_in_larger; exact Hl).
      rewrite lookup_insert_ne by exact Hla. exact Hl. }
    cbn [length seq for_each].
    rewrite (bind_returned (ret tt) _ _ tt _ eq_refl).
    apply Hfin; try reflexivity. cbn [heap]. apply lookup_insert_eq.
  - unfold batch_searches.
    rewrite (bind_returned (new_list _) _ w _ _ eq_refl).
    erewrite (bind_returned (len l)); cycle 1.
    { apply len_some. cbn [heap].
      rewrite lookup_insert_ne by exact Hla. exact Hl. }
    cbn [length seq for_each].
    rewrite (bind_returned (ret tt) _ _ tt _ eq_refl).
    apply Hfin; try reflexivity. cbn [heap]. apply lookup_insert_eq.
  - unfold batch_safe_get_company_by_urn.
    rewrite (bind_returned _ _ _ _ _ (list_items_some _ _ _ Hl)).
    rewrite (bind_returned _ _ _ _ _ (comprehension_ret _ [] w)).
    rewrite (bind_returned (new_list _) _ w _ _ eq_refl).
    erewrite (bind_returned (len l)); cycle 1.
    { apply len_some. cbn [heap].
      rewrite lookup_insert_ne by exact Hla. exact Hl. }
    cbn [length seq comprehension].
    rewrite (bind_returned (ret []) _ _ [] _ eq_refl).
    rewrite (bind_returned (new_list _) _ _ _ _ eq_refl).
    apply Hfin; try reflexivity. cbn [heap]. apply lookup_insert_eq.
Qed.


(** *** A batch that fits the idle workers *)

Lemma earliest_min ws : forall a, a ∈ ws -> ws !!! earliest ws <= a.
Proof.
  induction ws as [|b [|c rest] IH]; intros a Ha.
  - inversion Ha.
  - apply list_elem_of_singleton in Ha. subst.
    change ([b] !!! earliest [b]) with b. clear IH. lia.
  - change (earliest (b :: c :: rest))
      with (if b <=? (c :: rest) !!! earliest (c :: rest)
            then 0 else S (earliest (c :: rest))).
    destruct (Nat.leb_spec b ((c :: rest) !!! earliest (c :: rest)))
      as [Hle|Hgt].
    + change ((b :: c :: rest) !!! 0) with b.
      apply elem_of_cons in Ha as [->|Ha]; [lia|].
      specialize (IH a Ha). lia.
    + change ((b :: c :: rest) !!! S (earliest (c :: rest)))
        with ((c :: rest) !!! earliest (c :: rest)).
      apply elem_of_cons in Ha as [->|Ha]; [lia|]. exact (IH a Ha).
Qed.

Lemma filter_nonempty_elem {A} (P : A -> Prop) `{forall x, Decision (P x)}
  (l : list A) :
  0 < length (filter P l) -> exists x, x ∈ l /\ P x.
Proof.
  intros Hlen. destruct (filter P l) as [|x rest] eqn:E; [cbn in Hlen; lia|].
  assert (Hx : x ∈ filter P l) by (rewrite E; left).
  apply list_elem_of_filter in Hx as [HP Hin]. eauto.
Qed.

Lemma submit_all_idle now units : forall p fs,
  length units <= idle_now now p ->
  work_items (submit_all now units p) = work_items p ++ fs ->
  Forall (fun f => fut_start f = now) fs.
Proof.
  induction units as [|u units IH]; intros p fs Hidle Hfs.
  - cbn in Hfs. rewrite <- (app_nil_r (work_items p)) in Hfs at 1.
    apply app_inv_head in Hfs. subst fs. constructor.
  - change (submit_all now (u :: units) p)
      with (submit_all now units (executor_submit now u.1 u.2 p)) in Hfs.
    destruct (submit_all_prefix now units (executor_submit now u.1 u.2 p))
      as [fs' Hfs'].
    pose proof Hfs' as Hall. rewrite Hfs in Hall.
    cbn [work_items executor_submit] in Hall.
    rewrite <- app_assoc in Hall. apply app_inv_head in Hall. subst fs.
    cbn [length] in Hidle. unfold idle_now in Hidle.
    destruct (filter_nonempty_elem (fun a => a <= now) (idle_at p))
      as (a & Ha & Hle); [lia|].
    pose proof (earliest_min (idle_at p) a Ha) as Hmin.
    assert (Hk : earliest (idle_at p) < length (idle_at p)).
    { apply earliest_lt. intros E. rewrite E in Ha. inversion Ha. }
    constructor.
    + cbn [fut_start]. lia.
    + apply (IH (executor_submit now u.1 u.2 p) fs'); [|exact Hfs'].
      unfold idle_now. cbn [idle_at executor_submit].
      pose proof (filter_insert_length (fun a => a <= now) (idle_at p)
                    (earliest (idle_at p))
                    (now `max` (idle_at p !!! earliest (idle_at p)) +
                     cost u.1 u.2) Hk) as Hc.
      repeat case_decide; lia.
Qed.

Lemma submit_all_finish now units : forall p fs,
  work_items (submit_all now units p) = work_items p ++ fs ->
  Forall (fun f => fut_finish f = fut_start f + cost (fut_fn f) (fut_args f))
    fs.
Proof.
  induction units as [|u units IH]; intros p fs Hfs.
  - cbn in Hfs. rewrite <- (app_nil_r (work_items p)) in Hfs at 1.
    apply app_inv_head in Hfs. subst fs. constructor.
  - change (submit_all now (u :: units) p)
      with (submit_all now units (executor_submit now u.1 u.2 p)) in Hfs.
    destruct (submit_all_prefix now units (executor_submit now u.1 u.2 p))
      as [fs' Hfs'].
    pose proof Hfs' as Hall. rewrite Hfs in Hall.
    cbn [work_items executor_submit] in Hall.
    rewrite <- app_assoc in Hall. apply app_inv_head in Hall. subst fs.
    constructor; [reflexivity | exact (IH _ fs' Hfs')].
Qed.

(** X13.  When the executor has at least as many idle workers as the
    batch has units, every unit starts at the time of the call and runs for
    its own time only: no unit waits for another. *)
Theorem batch_within_idle_workers_runs_at_once fuel lc lp (units : list unit_)
    w o w' :
  heap w !! lc = Some (fst <$> units) ->
  heap w !! lp = Some ((fun u => VTuple u.2) <$> units) ->
  length units <= idle_now (clock w) (pool w) ->
  _parralelizeCallables (S fuel) lc lp w = (o, w') ->
  Forall
    (fun f =>
       fut_start f = clock w /\
       fut_finish f = clock w + cost (fut_fn f) (fut_args f))
    (added w w').
Proof.
  intros Hc Hp Hidle Hrun.
  destruct (engine_run_full fuel lc lp units _ w Hc Hp
              (tuples_lookup (heap w) units))
    as (fs & t0 & l & Hfs & _ & Hrun').
  rewrite Hrun' in Hrun.
  assert (Hpool : pool w' = submit_all (clock w) units (pool w)).
  { destruct (join_all t0 fs) as [[vs|e] t]; now inversion Hrun. }
  unfold added. rewrite Hpool, Hfs, drop_app_length.
  pose proof (submit_all_idle _ _ _ fs Hidle Hfs) as Hstart.
  pose proof (submit_all_finish _ _ _ fs Hfs) as Hfin.
  rewrite Forall_forall in Hstart, Hfin. apply Forall_forall. intros f Hf.
  specialize (Hstart f Hf). specialize (Hfin f Hf). split; [exact Hstart|lia].
Qed.

End Engine.

(** ** The wrapper's lookup that suppresses failures *)

(** C3.  [safe_get_company_by_urn] returns what the client's
    [get_company_by_id] returns when that lookup succeeds, and returns
    [None], raising nothing, whenever the lookup raises. *)
Theorem safe_lookup_suppresses_failure self urn :
  (forall company,
     get_company_by_id_raw (rawClient self) [urn] = Ok company ->
     safe_get_company_by_urn self urn = Ok company) /\
  (forall e,
     get_company_by_id_raw (rawClient self) [urn] = Raise e ->
     safe_get_company_by_urn self urn = Ok VNone).
Proof.
  unfold safe_get_company_by_urn, try_except.
  split; intros x Hx; now rewrite Hx.
Qed.

Lemma safe_lookup_suppresses_failure_witness :
  safe_get_company_by_urn sample_self (VInt 1) =
    Ok (VTuple [VStr "company"; VInt 1]) /\
  safe_get_company_by_urn sample_self (VInt 200) = Ok VNone.
Proof.
  split.
  - apply (proj1 (safe_lookup_suppresses_failure sample_self (VInt 1))).
    reflexivity.
  - apply (proj2 (safe_lookup_suppresses_failure sample_self (VInt 200))
             (Exc "NotFound")).
    reflexivity.
Defined.

(** ** The engine on the sample worlds *)

Lemma parralelize_results_aligned_witness :
  exists results,
    observe (_parralelizeCallables sample_env sample_cost sample_self 1 0 1)
      (world_of doubles) = Returned results /\
    length results = 3 /\
    forall i u, doubles !! i = Some u ->
      exists v, results !! i = Some v /\
                call sample_env sample_self u.1 u.2 = Ok v.
Proof.
  apply (parralelize_results_aligned sample_env sample_cost sample_self
           0 0 1 doubles (world_of doubles)).
  - reflexivity.
  - reflexivity.
  - unfold doubles. repeat (constructor; [eexists; reflexivity|]).
    constructor.
Defined.

(** The example of the specification: three doublings on two workers give
    [6, 8, 10] in that order. *)
Example doubles_in_order :
  observe (_parralelizeCallables sample_env sample_cost sample_self 1 0 1)
    (world_of doubles) = Returned [VInt 6; VInt 8; VInt 10].
Proof. reflexivity. Qed.

Lemma batch_all_or_nothing_witness :
  Exists
    (fun u => call sample_env sample_self u.1 u.2 = Raise (Exc "boom"))
    fails_fast.
Proof.
  exact (proj1 (batch_all_or_nothing sample_env sample_cost sample_self
                  0 0 1 fails_fast (world_of fails_fast) eq_refl eq_refl)).
Defined.

Lemma lowest_index_failure_surfaces_witness :
  observe (_parralelizeCallables sample_env sample_cost sample_self 1 0 1)
    (world_of two_failures) = Raised (Exc "bang").
Proof.
  apply (lowest_index_failure_surfaces sample_env sample_cost sample_self
           0 0 1 two_failures (world_of two_failures) 1
           (VCallable (Fn 2), [VInt 5]) (Exc "bang")).
  - reflexivity.
  - reflexivity.
  - reflexivity.
  - reflexivity.
  - intros j u' Hj Hu. destruct j as [|j]; [|lia].
    inversion Hu. eexists. reflexivity.
Defined.

Lemma batch_safe_one_slot_per_urn_witness :
  observe
    (batch_safe_get_company_by_urn sample_env sample_cost sample_self 1 0)
    (booted sample_urns []) =
  Returned
    [VTuple [VStr "company"; VInt 1]; VNone; VTuple [VStr "company"; VInt 3]].
Proof.
  exact (batch_safe_one_slot_per_urn sample_env sample_cost sample_self
           0 0 sample_urns (booted sample_urns []) eq_refl).
Defined.

Lemma batched_is_singular_replicated_witness :
  observe (enrich_companies sample_env sample_cost sample_self 1 0)
    (booted sample_urls []) =
  outcome_of (collect (enrich_company sample_self <$> sample_urls)).
Proof.
  exact (proj2 (proj2 (proj1
           (batched_is_singular_replicated sample_env sample_cost sample_self
              0 0 (booted sample_urls [])) sample_urls eq_refl))).
Defined.

Lemma inputs_not_mutated_witness :
  let w' :=
    (_parralelizeCallables sample_env sample_cost sample_self 1 0 1
       (world_of fails_fast)).2 in
  heap w' !! 0 = Some (fst <$> fails_fast) /\
  heap w' !! 1 = Some ((fun u : unit_ => VTuple u.2) <$> fails_fast).
Proof.
  exact (proj1 (inputs_not_mutated sample_env sample_cost sample_self 1
                  (world_of fails_fast)) 0 1 _ _ eq_refl eq_refl).
Defined.

Lemma larger_batches_queue_witness :
  submitted (_parralelizeCallables sample_env sample_cost sample_self 1 0 1)
    (world_of doubles) = doubles /\
  running_at 350
    (pool (_parralelizeCallables sample_env sample_cost sample_self 1 0 1
             (world_of doubles)).2) <= 2.
Proof.
  assert (Hall : Forall
            (fun u : unit_ =>
               exists v, call sample_env sample_self u.1 u.2 = Ok v) doubles).
  { unfold doubles. repeat (constructor; [eexists; reflexivity|]).
    constructor. }
  pose proof
    (larger_batches_queue sample_env sample_cost sample_self 0 sample_client
       (Some 2%Z)
       (boot (fst <$> doubles) ((fun u : unit_ => VTuple u.2) <$> doubles))
       (world_of doubles) 0 1 doubles (world_of doubles)
       eq_refl (served_refl _ _ _ _) eq_refl eq_refl Hall)
    as (_ & Hsub & Hrun & _).
  split; [exact Hsub | exact (Hrun 350)].
Defined.

(** ** Where the completion-detection loop leaves early *)

(** C7 (defect of the code).  At one unit that runs for one second the
    completion-detection loop polls the future once, finds it unfinished,
    sleeps 200 ms once and is left at 200 ms with the future still not
    done: there is no second scan.  In the whole run of the engine the log
    of the polling is that one poll and that one sleep; the caller then
    blocks in [result()] until the unit has finished at 1000 ms. *)
Theorem loop_left_after_one_sleep :
  let w :=
    {| heap := <[2 := [VFuture 0]]> ∅; clock := 0;
       pool := submit_all sample_env sample_cost sample_self 0 one_slow
                 {| idle_at := [0; 0]; work_items := [] |};
       log := [] |} in
  let w' :=
    (_parralelizeCallables sample_env sample_cost sample_self 5 0 1
       (world_of one_slow)).2 in
  (wait_resolved 5 2 w).1 = Returned true /\
  clock (wait_resolved 5 2 w).2 = 200 /\
  log (wait_resolved 5 2 w).2 = [Polled 0 false; Slept 200] /\
  (future_done (VFuture 0) (wait_resolved 5 2 w).2).1 = Returned false /\
  log w' = [Polled 0 false; Slept 200] /\
  fut_finish <$> work_items (pool w') = [1000] /\
  clock w' = 1000.
Proof. cbv zeta. vm_compute. repeat split. Qed.

(** C6 (defect of the code).  At a unit that raises at once, followed by a
    unit that runs for one second, the engine raises ["boom"] at 200 ms,
    while the second unit finishes only at 1000 ms. *)
Theorem raises_before_all_units_finish :
  let r :=
    _parralelizeCallables sample_env sample_cost sample_self 5 0 1
      (world_of fails_fast) in
  r.1 = Raised (Exc "boom") /\
  clock r.2 = 200 /\
  fut_finish <$> work_items (pool r.2) = [0; 1000].
Proof. cbv zeta. vm_compute. repeat split. Qed.

(** ** The further facts on the sample worlds *)

Lemma empty_batch_returns_at_once_witness :
  exists lr w',
    _parralelizeCallables sample_env sample_cost sample_self 1 0 1
      (booted [] [VInt 7]) = (Returned lr, w') /\
    heap w' !! lr = Some [] /\ heap (booted [] [VInt 7]) !! lr = None /\
    clock w' = 0 /\ pool w' = pool (booted [] [VInt 7]) /\ log w' = [].
Proof.
  exact (empty_batch_returns_at_once sample_env sample_cost sample_self
           0 0 1 (booted [] [VInt 7]) eq_refl).
Defined.

Lemma completion_loop_scans_once_witness :
  let p :=
    submit_all sample_env sample_cost sample_self 0 quick_then_slow
      {| idle_at := [0; 0]; work_items := [] |} in
  let w :=
    {| heap := <[2 := [VFuture 0; VFuture 1]]> ∅; clock := 0; pool := p;
       log := [] |} in
  exists t l,
    wait_resolved 1 2 w =
    (Returned true,
     {| heap := heap w; clock := t; pool := pool w; log := l |}) /\
    ((Forall (fun f => fut_finish f <= clock w) (work_items p) /\
      t = clock w /\ l = log w ++ polled_done [0; 1]) \/
     (exists k id f,
        [0; 1] !! k = Some id /\ work_items p !! k = Some f /\
        clock w < fut_finish f /\
        Forall (fun f => fut_finish f <= clock w) (take k (work_items p)) /\
        t = clock w + 200 /\
        l = log w ++ polled_done (take k [0; 1]) ++
            [Polled id false; Slept 200])).
Proof.
  cbv zeta.
  apply (completion_loop_scans_once 0 2 [0; 1]).
  - reflexivity.
  - repeat constructor.
Defined.

Lemma returns_when_last_unit_finishes_witness :
  let w := world_of doubles in
  let w' :=
    (_parralelizeCallables sample_env sample_cost sample_self 1 0 1 w).2 in
  Forall (fun f => fut_finish f <= clock w') (added w w') /\
  (clock w' = clock w \/ clock w' = clock w + 200 \/
   exists f, f ∈ added w w' /\ clock w' = fut_finish f).
Proof.
  cbv zeta.
  apply (returns_when_last_unit_finishes sample_env sample_cost sample_self
           0 0 1 doubles (world_of doubles) 3).
  - reflexivity.
  - reflexivity.
  - reflexivity.
Defined.

Lemma raises_when_failing_unit_finishes_witness :
  let w := world_of two_failures in
  exists w',
    _parralelizeCallables sample_env sample_cost sample_self 1 0 1 w =
      (Raised (Exc "bang"), w') /\
    Forall (fun f => fut_finish f <= clock w') (take 2 (added w w')) /\
    (clock w' = clock w \/ clock w' = clock w + 200 \/
     exists f, f ∈ take 2 (added w w') /\ clock w' = fut_finish f).
Proof.
  cbv zeta.
  apply (raises_when_failing_unit_finishes sample_env sample_cost sample_self
           0 0 1 two_failures (world_of two_failures) 1
           (VCallable (Fn 2), [VInt 5]) (Exc "bang")).
  - reflexivity.
  - reflexivity.
  - reflexivity.
  - reflexivity.
  - intros j u' Hj Hu. destruct j as [|j]; [|lia].
    inversion Hu. eexists. reflexivity.
Defined.

Lemma takes_200ms_unless_settled_witness :
  let w := world_of quick_then_slow in
  let r := _parralelizeCallables sample_env sample_cost sample_self 1 0 1 w in
  (Forall (fun f => fut_finish f <= clock w) (added w r.2) ->
   clock r.2 = clock w) /\
  (Exists (fun f => clock w < fut_finish f) (added w r.2) ->
   clock w + 200 <= clock r.2).
Proof.
  cbv zeta.
  apply (takes_200ms_unless_settled sample_env sample_cost sample_self
           0 0 1 quick_then_slow (world_of quick_then_slow)
           (_parralelizeCallables sample_env sample_cost sample_self 1 0 1
              (world_of quick_then_slow)).1).
  - reflexivity.
  - reflexivity.
  - apply surjective_pairing.
Defined.

Lemma every_unit_is_executed_witness :
  let w := world_of fails_fast in
  let r := _parralelizeCallables sample_env sample_cost sample_self 1 0 1 w in
  take (length (work_items (pool w))) (work_items (pool r.2)) =
    work_items (pool w) /\
  (fun f => (fut_fn f, fut_args f, fut_outcome f)) <$> added w r.2 =
    (fun u : unit_ => (u.1, u.2, call sample_env sample_self u.1 u.2))
      <$> fails_fast.
Proof.
  cbv zeta.
  apply (every_unit_is_executed sample_env sample_cost sample_self
           0 0 1 fails_fast (world_of fails_fast)
           (_parralelizeCallables sample_env sample_cost sample_self 1 0 1
              (world_of fails_fast)).1).
  - reflexivity.
  - reflexivity.
  - apply surjective_pairing.
Defined.

Lemma extra_tuples_are_ignored_witness :
  let w :=
    booted (fst <$> doubles)
      (((fun u : unit_ => VTuple u.2) <$> doubles) ++ [VInt 0; VNone]) in
  observe (_parralelizeCallables sample_env sample_cost sample_self 1 0 1) w =
    outcome_of
      (collect
         ((fun u : unit_ => call sample_env sample_self u.1 u.2) <$> doubles))
  /\
  submitted (_parralelizeCallables sample_env sample_cost sample_self 1 0 1) w
    = doubles.
Proof.
  cbv zeta.
  apply (extra_tuples_are_ignored sample_env sample_cost sample_self
           0 0 1 doubles [VInt 0; VNone]).
  - reflexivity.
  - reflexivity.
Defined.

Lemma short_tuple_list_raises_index_error_witness :
  let w := booted (fst <$> doubles) [VTuple [VInt 3]] in
  exists w',
    _parralelizeCallables sample_env sample_cost sample_self 1 0 1 w =
      (Raised IndexError, w') /\
    clock w' = clock w /\ log w' = log w /\
    (fun f => (fut_fn f, fut_args f)) <$> added w w' =
      zip (fst <$> doubles) [[VInt 3]].
Proof.
  cbv zeta.
  apply (short_tuple_list_raises_index_error sample_env sample_cost
           sample_self 1 0 1 (fst <$> doubles) [[VInt 3]]).
  - reflexivity.
  - reflexivity.
  - cbn. lia.
Defined.

Lemma entry_not_iterable_raises_type_error_witness :
  let w :=
    booted (fst <$> doubles) [VTuple [VInt 3]; VInt 4; VTuple [VInt 5]] in
  exists w',
    _parralelizeCallables sample_env sample_cost sample_self 1 0 1 w =
      (Raised TypeError, w') /\
    clock w' = clock w /\ log w' = log w /\
    (fun f => (fut_fn f, fut_args f)) <$> added w w' =
      zip (fst <$> doubles) [[VInt 3]].
Proof.
  cbv zeta.
  apply (entry_not_iterable_raises_type_error sample_env sample_cost
           sample_self 1 0 1 (fst <$> doubles) [[VInt 3]] (VInt 4)
           [VTuple [VInt 5]]).
  - reflexivity.
  - reflexivity.
  - exact I.
  - cbn. lia.
Defined.

Lemma result_is_a_new_list_witness :
  let w := world_of doubles in
  let r := _parralelizeCallables sample_env sample_cost sample_self 1 0 1 w in
  heap w !! 3 = None /\ is_Some (heap r.2 !! 3).
Proof.
  cbv zeta.
  apply (proj1 (result_is_a_new_list sample_env sample_cost sample_self
                  1 0 1 0)).
  reflexivity.
Defined.

Lemma batch_searches_and_search_witness :
  observe (batch_searches sample_env sample_cost sample_self 1 0)
    (booted [VTuple [VStr "q"; VInt 1; VInt 10; VBool false]] []) =
  outcome_of
    (collect
       [search sample_self (VStr "q") (Some (VInt 1)) (Some (VInt 10))
          (Some (VBool false))]).
Proof.
  exact (proj1 (batch_searches_and_search sample_env sample_cost sample_self
                  0 0
                  (booted [VTuple [VStr "q"; VInt 1; VInt 10; VBool false]]
                     []))
           [(VStr "q", VInt 1, VInt 10, VBool false)] eq_refl).
Defined.

Lemma batched_on_empty_list_witness :
  Forall
    (fun op : nat -> loc -> M loc =>
       exists lr w',
         op 1 0 (booted [] []) = (Returned lr, w') /\
         heap w' !! lr = Some [] /\
         clock w' = 0 /\ pool w' = pool (booted [] []) /\ log w' = [])
    [enrich_companies sample_env sample_cost sample_self;
     enrich_people sample_env sample_cost sample_self;
     batch_searches sample_env sample_cost sample_self;
     batch_safe_get_company_by_urn sample_env sample_cost sample_self].
Proof.
  exact (batched_on_empty_list sample_env sample_cost sample_self 0 0
           (booted [] []) eq_refl).
Defined.

Lemma batch_within_idle_workers_runs_at_once_witness :
  let w := world_of fails_fast in
  let r := _parralelizeCallables sample_env sample_cost sample_self 1 0 1 w in
  Forall
    (fun f =>
       fut_start f = clock w /\
       fut_finish f = clock w + sample_cost (fut_fn f) (fut_args f))
    (added w r.2).
Proof.
  cbv zeta.
  apply (batch_within_idle_workers_runs_at_once sample_env sample_cost
           sample_self 0 0 1 fails_fast (world_of fails_fast)
           (_parralelizeCallables sample_env sample_cost sample_self 1 0 1
              (world_of fails_fast)).1).
  - reflexivity.
  - reflexivity.
  - vm_compute. lia.
  - apply surjective_pairing.
Defined.


